(** * http-extend: request-augmentation transforms

    A shallow embedding of [src/index.ts] ([addBody], [addXhr],
    [addUrlObj], [addCookies]) together with executable models of the
    JavaScript and Node.js built-ins the four functions call, and the
    properties of the transforms proved over that embedding. *)

From Stdlib Require Import ZArith NArith List Ascii String DecimalString Bool Lia.
From Stdlib.Strings Require Import Byte.
From stdpp Require Import base decidable option list numbers countable gmap.
Import ListNotations.

Local Open Scope N_scope.
Local Open Scope list_scope.

(** ** JavaScript strings

    A JavaScript string is a sequence of 16-bit code units.  Header values
    and the request URL come out of Node's HTTP parser as latin-1 text, so
    their code units are below 256; the strings the decoders build may hold
    any code unit. *)

Abbreviation jsstring := (list N).

(** The string written by an ASCII literal of the source. *)
Definition js (s : string) : jsstring :=
  List.map N_of_ascii (list_ascii_of_string s).
Arguments js s%_string.

(** [Array.prototype.join(sep)] on an array of strings. *)
Fixpoint join (sep : jsstring) (l : list jsstring) : jsstring :=
  match l with
  | [] => []
  | [x] => x
  | x :: rest => x ++ sep ++ join sep rest
  end.

(** [String.prototype.indexOf(c)] for a one-unit needle: the offset of the
    first occurrence, or -1. *)
Fixpoint indexOf (s : jsstring) (c : N) : Z :=
  match s with
  | [] => (-1)%Z
  | x :: rest =>
      if x =? c then 0%Z
      else let i := indexOf rest c in
           if (i <? 0)%Z then (-1)%Z else (i + 1)%Z
  end.

(** [String.prototype.slice(start, end)]: a negative offset counts from the
    end of the string, every offset is clamped to [0, length], and an
    absent [end] is the length. *)
Definition slice_offset (len i : Z) : Z :=
  if (i <? 0)%Z then Z.max (len + i) 0 else Z.min i len.

Definition slice (s : jsstring) (start : Z) (stop : option Z) : jsstring :=
  let len := Z.of_nat (length s) in
  let from := slice_offset len start in
  let to := match stop with
            | Some e => slice_offset len e
            | None => len
            end in
  take (Z.to_nat (Z.max (to - from) 0)) (drop (Z.to_nat from) s).

(** ** Regular expressions of the source

    The source uses four regular expressions, each a literal text with at
    most a flag or an anchor.  [RegExp.prototype.test] searches for the
    leftmost match, so for a literal it is a substring search. *)

(** Canonicalisation of the [i] flag.  Every pattern of the source is
    ASCII, and without the [u] flag a code unit above 127 never
    canonicalises to an ASCII one, so folding ASCII letters is exact. *)
Definition canonicalize (c : N) : N :=
  if (97 <=? c) && (c <=? 122) then c - 32 else c.

Definition same_unit (ignore_case : bool) (a b : N) : bool :=
  if ignore_case then canonicalize a =? canonicalize b else a =? b.

Fixpoint match_here (ignore_case : bool) (pat s : jsstring) : bool :=
  match pat, s with
  | [], _ => true
  | _ :: _, [] => false
  | p :: pat', c :: s' => same_unit ignore_case p c && match_here ignore_case pat' s'
  end.

(** [/pat/.test(s)] and, with [ignore_case], [/pat/i.test(s)]. *)
Fixpoint regex_test (ignore_case : bool) (pat s : jsstring) : bool :=
  match_here ignore_case pat s ||
  match s with
  | [] => false
  | _ :: s' => regex_test ignore_case pat s'
  end.

Fixpoint same_text (a b : jsstring) : bool :=
  match a, b with
  | [], [] => true
  | x :: a', y :: b' => (x =? y) && same_text a' b'
  | _, _ => false
  end.

(** [/pat$/.test(s)]: without the [m] flag the anchor holds at the end of
    the input only. *)
Fixpoint regex_test_at_end (pat s : jsstring) : bool :=
  same_text pat s ||
  match s with
  | [] => false
  | _ :: s' => regex_test_at_end pat s'
  end.

(** The class [\s]: white space and line terminators of ECMAScript. *)
Definition is_whitespace (c : N) : bool :=
  ((9 <=? c) && (c <=? 13)) || (c =? 32) || (c =? 160) || (c =? 5760) ||
  ((8192 <=? c) && (c <=? 8202)) || (c =? 8232) || (c =? 8233) ||
  (c =? 8239) || (c =? 8287) || (c =? 12288) || (c =? 65279).

(** [s.split(/;\s*/)].  The separator is a semicolon with the longest run
    of white space after it; it never matches the empty string, so the
    empty input gives one empty piece.  [skipping] is set while the run of
    white space after a semicolon is being consumed, [piece] is the text of
    the piece under construction. *)
Fixpoint split_go (skipping : bool) (piece s : jsstring) : list jsstring :=
  match s with
  | [] => [piece]
  | c :: rest =>
      if skipping && is_whitespace c then split_go true piece rest
      else if c =? 59 then piece :: split_go true [] rest
      else split_go false (piece ++ [c]) rest
  end.

Definition split_semicolon (s : jsstring) : list jsstring := split_go false [] s.

(** ** Requests *)

(** A header the parser may hand over as one string or as an array of
    strings. *)
Inductive header_value : Type :=
| HString (s : jsstring)
| HArray (l : list jsstring).

(** The headers the transforms read.  Node keeps a single value for
    [content-type] (a repeated one is discarded), so it is a string when it
    is present; the other three are read through coercions or an explicit
    [Array.isArray] test and may be of either shape. *)
Record IncomingHttpHeaders : Type := {
  content_type : option jsstring;
  x_requested_with : option header_value;
  accept : option header_value;
  cookie : option header_value
}.

Record IncomingMessage : Type := {
  headers : IncomingHttpHeaders;
  url : jsstring
}.

(** [Object.assign(req, {field})]: the request with one more field. *)
Record extended (F : Type) : Type := Object_assign {
  request : IncomingMessage;
  field : F
}.
Arguments Object_assign {F} request field.
Arguments request {F} e.
Arguments field {F} e.

(** ToString of a header value or of [undefined], as applied by
    [RegExp.prototype.test] and by [==] against a string. *)
Definition header_text (h : header_value) : jsstring :=
  match h with
  | HString s => s
  | HArray l => join (js ",") l
  end.

Definition ToString (h : option header_value) : jsstring :=
  match h with
  | None => js "undefined"
  | Some v => header_text v
  end.

(** [h == s] for a string [s]: [undefined] equals no string, a string is
    compared unit by unit, an array is compared through its ToString. *)
Definition loose_equals (h : option header_value) (s : jsstring) : bool :=
  match h with
  | None => false
  | Some v => same_text (header_text v) s
  end.

(** ** addXhr *)

Definition addXhr (req : IncomingMessage) : extended bool :=
  let xhr := loose_equals (x_requested_with (headers req)) (js "XMLHttpRequest") ||
             regex_test_at_end (js ".json") (url req) ||
             negb (regex_test false (js "text/html") (ToString (accept (headers req)))) in
  Object_assign req xhr.

(** ** Errors and abrupt completion *)

(** An error object: its [name], its [message] and its other own
    properties.  A property holds text or another error. *)
Unset Elimination Schemes.
Inductive js_error : Type :=
| JsError (name message : jsstring) (own : list (jsstring * js_property))
with js_property : Type :=
| PText (s : jsstring)
| PError (e : js_error).
Set Elimination Schemes.

Definition error_name (e : js_error) : jsstring :=
  match e with JsError name _ _ => name end.

Definition error_message (e : js_error) : jsstring :=
  match e with JsError _ message _ => message end.

Definition error_own (e : js_error) : list (jsstring * js_property) :=
  match e with JsError _ _ own => own end.

(** The error [decodeURIComponent] throws. *)
Definition URIError : js_error :=
  JsError (js "URIError") (js "URI malformed") [].

(** The error [JSON.parse] throws. *)
Definition SyntaxError (message : jsstring) : js_error :=
  JsError (js "SyntaxError") message [].

(** The outcome of a synchronous call: a value, or a thrown error. *)
Inductive completion (A : Type) : Type :=
| Normal (a : A)
| Throw (e : js_error).
Arguments Normal {A} a.
Arguments Throw {A} e.

(** Sequencing: a thrown error skips the rest. *)
#[global] Instance completion_ret : MRet completion := fun A a => Normal a.
#[global] Instance completion_bind : MBind completion := fun A B k c =>
  match c with
  | Normal a => k a
  | Throw e => Throw e
  end.

(** ** Buffers and UTF-8 *)

Abbreviation Buffer := (list byte).

(** [Buffer.concat(chunks)]. *)
Definition Buffer_concat (chunks : list Buffer) : Buffer := List.concat chunks.

(** The UTF-8 decoder: the code point under construction, the number of
    continuation bytes still missing, and the range allowed for the next
    byte. *)
Record utf8_state : Type := {
  code_point : N;
  missing : nat;
  lower : N;
  upper : N
}.

Definition utf8_idle : utf8_state :=
  {| code_point := 0; missing := 0; lower := 128; upper := 191 |}.

(** A byte met when no sequence is open.  The result is what is emitted (a
    code point, or [None] for a malformed sequence) and the next state. *)
Definition utf8_lead (b : N) : list (option N) * utf8_state :=
  if b <=? 127 then ([Some b], utf8_idle)
  else if (194 <=? b) && (b <=? 223) then
    ([], {| code_point := N.land b 31; missing := 1; lower := 128; upper := 191 |})
  else if (224 <=? b) && (b <=? 239) then
    ([], {| code_point := N.land b 15; missing := 2;
            lower := (if b =? 224 then 160 else 128);
            upper := (if b =? 237 then 159 else 191) |})
  else if (240 <=? b) && (b <=? 244) then
    ([], {| code_point := N.land b 7; missing := 3;
            lower := (if b =? 240 then 144 else 128);
            upper := (if b =? 244 then 143 else 191) |})
  else ([None], utf8_idle).

Definition utf8_step (st : utf8_state) (b : N) : list (option N) * utf8_state :=
  match missing st with
  | O => utf8_lead b
  | S m =>
      if (lower st <=? b) && (b <=? upper st) then
        let cp := N.lor (N.shiftl (code_point st) 6) (N.land b 63) in
        match m with
        | O => ([Some cp], utf8_idle)
        | S _ => ([], {| code_point := cp; missing := m; lower := 128; upper := 191 |})
        end
      else
        let (out, st') := utf8_lead b in (None :: out, st')
  end.

Fixpoint utf8_run (st : utf8_state) (bs : list N) : list (option N) :=
  match bs with
  | [] => match missing st with O => [] | S _ => [None] end
  | b :: rest => let (out, st') := utf8_step st b in out ++ utf8_run st' rest
  end.

(** The code units of a code point. *)
Definition utf16 (cp : N) : jsstring :=
  if cp <? 65536 then [cp]
  else let c := cp - 65536 in [55296 + N.shiftr c 10; 56320 + N.land c 1023].

Definition replacement (o : option N) : jsstring :=
  match o with
  | Some cp => utf16 cp
  | None => [65533]
  end.

(** Text of a byte sequence read as UTF-8, each malformed sequence replaced
    by U+FFFD. *)
Definition utf8_text (bs : list N) : jsstring :=
  List.concat (List.map replacement (utf8_run utf8_idle bs)).

(** The one character encoding the source names. *)
Inductive encoding : Type := utf8.

(** [buf.toString(encoding)]. *)
Definition Buffer_toString (buf : Buffer) (enc : encoding) : jsstring :=
  match enc with
  | utf8 => utf8_text (List.map Byte.to_N buf)
  end.

(** ** decodeURIComponent *)

Definition hex_value (c : N) : option N :=
  if (48 <=? c) && (c <=? 57) then Some (c - 48)
  else if (65 <=? c) && (c <=? 70) then Some (c - 55)
  else if (97 <=? c) && (c <=? 102) then Some (c - 87)
  else None.

(** The number of leading one bits of an octet. *)
Definition leading_ones (b : N) : nat :=
  if b <? 128 then 0
  else if b <? 192 then 1
  else if b <? 224 then 2
  else if b <? 240 then 3
  else if b <? 248 then 4
  else 5.

(** Where the decoder stands inside an escape: [octets] are those of the
    sequence read so far, [more] counts the escapes still to come after the
    one being read. *)
Inductive uri_state : Type :=
| UPlain
| UPercent (octets : list N) (more : nat)
| UHigh (octets : list N) (more : nat) (high : N)
| UNext (octets : list N) (more : nat).

(** An octet has been read in full. *)
Definition uri_octet (octets : list N) (more : nat) (b : N)
  : option (jsstring * uri_state) :=
  match octets, more with
  | [], _ =>
      match leading_ones b with
      | 0%nat => Some ([b], UPlain)
      | 2%nat => Some ([], UNext [b] 1)
      | 3%nat => Some ([], UNext [b] 2)
      | 4%nat => Some ([], UNext [b] 3)
      | _ => None
      end
  | _ :: _, S _ => Some ([], UNext (octets ++ [b]) more)
  | _ :: _, O =>
      match utf8_run utf8_idle (octets ++ [b]) with
      | [Some cp] => Some (utf16 cp, UPlain)
      | _ => None
      end
  end.

Definition uri_step (st : uri_state) (c : N) : option (jsstring * uri_state) :=
  match st with
  | UPlain => if c =? 37 then Some ([], UPercent [] 0) else Some ([c], UPlain)
  | UPercent octets more =>
      match hex_value c with
      | Some h => Some ([], UHigh octets more h)
      | None => None
      end
  | UHigh octets more h =>
      match hex_value c with
      | Some l => uri_octet octets more (16 * h + l)
      | None => None
      end
  | UNext octets more =>
      if c =? 37 then Some ([], UPercent octets (Nat.pred more)) else None
  end.

Fixpoint uri_run (st : uri_state) (s : jsstring) : option jsstring :=
  match s with
  | [] => match st with UPlain => Some [] | _ => None end
  | c :: rest =>
      match uri_step st c with
      | Some (out, st') =>
          match uri_run st' rest with
          | Some r => Some (out ++ r)
          | None => None
          end
      | None => None
      end
  end.

(** [decodeURIComponent(s)]: every escape sequence is replaced by the code
    point its octets encode in UTF-8; a truncated escape, a digit that is
    not hexadecimal or octets that are not one well-formed UTF-8 sequence
    throw a URIError. *)
Definition decodeURIComponent (s : jsstring) : completion jsstring :=
  match uri_run UPlain s with
  | Some r => Normal r
  | None => Throw URIError
  end.

(** ** JSON.parse *)

(** A parsed JSON text.  A number keeps the text of its literal: the
    rounding to a binary64 value is outside this model.  The members of an
    object are listed in the order the text first names them (that the
    engine enumerates integer-like names first is outside it too). *)
Unset Elimination Schemes.
Inductive json : Type :=
| JNull
| JBool (b : bool)
| JNumber (literal : jsstring)
| JString (s : jsstring)
| JArray (items : list json)
| JObject (members : list (jsstring * json)).
Set Elimination Schemes.

(** A member defined again keeps its place and takes the later value. *)
Fixpoint define_member (members : list (jsstring * json)) (name : jsstring) (v : json)
  : list (jsstring * json) :=
  match members with
  | [] => [(name, v)]
  | (n, old) :: rest =>
      if same_text n name then (n, v) :: rest
      else (n, old) :: define_member rest name v
  end.

Inductive token : Type :=
| TScalar (v : json)
| TOpenArray
| TCloseArray
| TOpenObject
| TCloseObject
| TColon
| TComma.

(** An array or an object whose closing bracket has not been read. *)
Inductive frame : Type :=
| FArray (items : list json)
| FObject (members : list (jsstring * json)) (name : jsstring).

(** What the grammar allows next; [first] is set right after an opening
    bracket, where the closing one is allowed too. *)
Inductive expecting : Type :=
| EValue (first : bool)
| EName (first : bool)
| EColon (name : jsstring)
| ENext
| EDone (v : json).

Abbreviation parser := (list frame * expecting)%type.

(** A complete value goes into the innermost open container. *)
Definition deliver (v : json) (stack : list frame) : parser :=
  match stack with
  | [] => ([], EDone v)
  | FArray items :: below => (FArray (items ++ [v]) :: below, ENext)
  | FObject members name :: below =>
      (FObject (define_member members name v) name :: below, ENext)
  end.

Definition close_array (stack : list frame) : option parser :=
  match stack with
  | FArray items :: below => Some (deliver (JArray items) below)
  | _ => None
  end.

Definition close_object (stack : list frame) : option parser :=
  match stack with
  | FObject members _ :: below => Some (deliver (JObject members) below)
  | _ => None
  end.

Definition feed (p : parser) (t : token) : option parser :=
  let (stack, e) := p in
  match e, t with
  | EValue _, TScalar v => Some (deliver v stack)
  | EValue _, TOpenArray => Some (FArray [] :: stack, EValue true)
  | EValue _, TOpenObject => Some (FObject [] [] :: stack, EName true)
  | EValue true, TCloseArray => close_array stack
  | EName _, TScalar (JString name) => Some (stack, EColon name)
  | EName true, TCloseObject => close_object stack
  | EColon name, TColon =>
      match stack with
      | FObject members _ :: below => Some (FObject members name :: below, EValue false)
      | _ => None
      end
  | ENext, TComma =>
      match stack with
      | FArray _ :: _ => Some (stack, EValue false)
      | FObject _ _ :: _ => Some (stack, EName false)
      | [] => None
      end
  | ENext, TCloseArray => close_array stack
  | ENext, TCloseObject => close_object stack
  | _, _ => None
  end.

(** The automaton of a number literal: an optional minus sign; a zero, or a
    digit other than zero followed by digits; optionally a point and at
    least one digit; optionally an exponent mark, a sign and at least one
    digit. *)
Inductive number_state : Type :=
| NMinus | NZero | NInt | NPoint | NFraction | NExp | NExpSign | NExpDigits.

Definition is_digit (c : N) : bool := (48 <=? c) && (c <=? 57).

Definition is_exponent_mark (c : N) : bool := (c =? 101) || (c =? 69).

Definition number_next (st : number_state) (c : N) : option number_state :=
  match st with
  | NMinus => if c =? 48 then Some NZero else if is_digit c then Some NInt else None
  | NZero =>
      if c =? 46 then Some NPoint
      else if is_exponent_mark c then Some NExp else None
  | NInt =>
      if is_digit c then Some NInt
      else if c =? 46 then Some NPoint
      else if is_exponent_mark c then Some NExp else None
  | NPoint => if is_digit c then Some NFraction else None
  | NFraction =>
      if is_digit c then Some NFraction
      else if is_exponent_mark c then Some NExp else None
  | NExp =>
      if (c =? 43) || (c =? 45) then Some NExpSign
      else if is_digit c then Some NExpDigits else None
  | NExpSign => if is_digit c then Some NExpDigits else None
  | NExpDigits => if is_digit c then Some NExpDigits else None
  end.

Definition number_complete (st : number_state) : bool :=
  match st with
  | NZero | NInt | NFraction | NExpDigits => true
  | _ => false
  end.

Inductive lexer : Type :=
| LStart
| LString (text : jsstring)
| LEscape (text : jsstring)
| LUnicode (text : jsstring) (digits : nat) (value : N)
| LNumber (st : number_state) (text : jsstring)
| LWord (rest : jsstring) (v : json).

Definition is_json_space (c : N) : bool :=
  (c =? 32) || (c =? 9) || (c =? 10) || (c =? 13).

(** The unit a one-letter escape stands for. *)
Definition escape_unit (c : N) : option N :=
  if (c =? 34) || (c =? 92) || (c =? 47) then Some c
  else if c =? 98 then Some 8
  else if c =? 102 then Some 12
  else if c =? 110 then Some 10
  else if c =? 114 then Some 13
  else if c =? 116 then Some 9
  else None.

Definition punctuation (c : N) : option token :=
  if c =? 91 then Some TOpenArray
  else if c =? 93 then Some TCloseArray
  else if c =? 123 then Some TOpenObject
  else if c =? 125 then Some TCloseObject
  else if c =? 58 then Some TColon
  else if c =? 44 then Some TComma
  else None.

Definition emit_token (p : parser) (t : token) : option (lexer * parser) :=
  match feed p t with
  | Some p' => Some (LStart, p')
  | None => None
  end.

(** Whether a string, or another scalar, may begin where the parser
    stands. *)
Definition string_allowed (p : parser) : bool :=
  match snd p with
  | EValue _ | EName _ => true
  | _ => false
  end.

Definition value_allowed (p : parser) : bool :=
  match snd p with
  | EValue _ => true
  | _ => false
  end.

(** The first unit of a number or of one of the three words. *)
Definition scalar_start (c : N) : option lexer :=
  if c =? 45 then Some (LNumber NMinus [c])
  else if c =? 48 then Some (LNumber NZero [c])
  else if is_digit c then Some (LNumber NInt [c])
  else if c =? 116 then Some (LWord (js "rue") (JBool true))
  else if c =? 102 then Some (LWord (js "alse") (JBool false))
  else if c =? 110 then Some (LWord (js "ull") JNull)
  else None.

(** A unit met between two tokens. *)
Definition lex_start (p : parser) (c : N) : option (lexer * parser) :=
  if is_json_space c then Some (LStart, p)
  else if c =? 34 then
    if string_allowed p then Some (LString [], p) else None
  else match scalar_start c with
       | Some l => if value_allowed p then Some (l, p) else None
       | None =>
           match punctuation c with
           | Some t => emit_token p t
           | None => None
           end
       end.

Definition lex_step (st : lexer * parser) (c : N) : option (lexer * parser) :=
  let (l, p) := st in
  match l with
  | LStart => lex_start p c
  | LString text =>
      if c =? 34 then emit_token p (TScalar (JString text))
      else if c =? 92 then Some (LEscape text, p)
      else if c <? 32 then None
      else Some (LString (text ++ [c]), p)
  | LEscape text =>
      match escape_unit c with
      | Some u => Some (LString (text ++ [u]), p)
      | None => if c =? 117 then Some (LUnicode text 0 0, p) else None
      end
  | LUnicode text digits value =>
      match hex_value c with
      | Some d =>
          let value' := 16 * value + d in
          match digits with
          | 3%nat => Some (LString (text ++ [value']), p)
          | _ => Some (LUnicode text (S digits) value', p)
          end
      | None => None
      end
  | LNumber n text =>
      match number_next n c with
      | Some n' => Some (LNumber n' (text ++ [c]), p)
      | None =>
          if number_complete n then
            match feed p (TScalar (JNumber text)) with
            | Some p' => lex_start p' c
            | None => None
            end
          else None
      end
  | LWord rest v =>
      match rest with
      | r :: rest' =>
          if c =? r then
            match rest' with
            | [] => emit_token p (TScalar v)
            | _ :: _ => Some (LWord rest' v, p)
            end
          else None
      | [] => None
      end
  end.

(** The whole text is read unit by unit; the result is the state at the end
    of the input, or the offset of the unit that cannot continue a JSON
    text. *)
Fixpoint json_run (st : lexer * parser) (pos : N) (s : jsstring)
  : N + (lexer * parser) :=
  match s with
  | [] => inr st
  | c :: rest =>
      match lex_step st c with
      | Some st' => json_run st' (pos + 1) rest
      | None => inl pos
      end
  end.

(** At the end of the input a number may still be open; the text is a JSON
    text when exactly one value is complete. *)
Definition json_finish (st : lexer * parser) : option json :=
  let (l, p) := st in
  let closed :=
    match l with
    | LStart => Some p
    | LNumber n text =>
        if number_complete n then feed p (TScalar (JNumber text)) else None
    | _ => None
    end in
  match closed with
  | Some ([], EDone v) => Some v
  | _ => None
  end.

Definition decimal (n : N) : jsstring :=
  js (DecimalString.NilEmpty.string_of_uint (N.to_uint n)).

(** [JSON.parse(text)].  The wording of the message is the engine's; the
    model keeps its two shapes, the offset of the offending unit or the end
    of the input. *)
Definition JSON_parse (text : jsstring) : completion json :=
  match json_run (LStart, ([], EValue false)) 0 text with
  | inl pos =>
      Throw (SyntaxError (js "Unexpected token in JSON at position " ++ decimal pos))
  | inr st =>
      match json_finish st with
      | Some v => Normal v
      | None => Throw (SyntaxError (js "Unexpected end of JSON input"))
      end
  end.

(** ** querystring.parse

    Node's [querystring.parse(str)] with its default separators, decoder
    and limit of 1000 pairs. *)

(** A value of the parsed object: the text of a name met once, or the list
    of the texts of a repeated name. *)
Inductive qs_value : Type :=
| QText (s : jsstring)
| QList (l : list jsstring).

(** [s.split(sep)] for a one-unit separator. *)
Fixpoint split_on (sep : N) (piece s : jsstring) : list jsstring :=
  match s with
  | [] => [piece]
  | c :: rest =>
      if c =? sep then piece :: split_on sep [] rest
      else split_on sep (piece ++ [c]) rest
  end.

Definition plus_to_space (s : jsstring) : jsstring :=
  List.map (fun c => if c =? 43 then 32 else c) s.

(** What the parser remembers while it reads the units of one piece:
    whether the equals sign has been met, whether an escape (a percent sign
    and two hexadecimal digits) has been seen in the name and in the value,
    and the counter [encodeCheck] of the units of the escape being read. *)
Record scan : Type := {
  seen_equals : bool;
  keyEncoded : bool;
  valEncoded : bool;
  encodeCheck : nat
}.

Definition scan_start : scan :=
  {| seen_equals := false; keyEncoded := false; valEncoded := false; encodeCheck := 0 |}.

(** The test applied to a unit of the value.  It is also the one a unit of
    the name falls through to once the name is known to hold an escape. *)
Definition check_value (st : scan) (c : N) : scan :=
  if valEncoded st then st
  else if c =? 37 then
    {| seen_equals := seen_equals st; keyEncoded := keyEncoded st;
       valEncoded := false; encodeCheck := 1 |}
  else match encodeCheck st with
       | O => st
       | S n =>
           match hex_value c with
           | Some _ =>
               {| seen_equals := seen_equals st; keyEncoded := keyEncoded st;
                  valEncoded := (S (S n) =? 3)%nat; encodeCheck := S (S n) |}
           | None =>
               {| seen_equals := seen_equals st; keyEncoded := keyEncoded st;
                  valEncoded := false; encodeCheck := 0 |}
           end
       end.

(** One unit of a piece.  A plus sign leaves the counter alone wherever the
    test of the value is the one in force, and resets it in a name in which
    no escape has been seen yet; the first equals sign resets it. *)
Definition scan_unit (st : scan) (c : N) : scan :=
  if seen_equals st then
    if c =? 43 then st else check_value st c
  else if c =? 61 then
    {| seen_equals := true; keyEncoded := keyEncoded st;
       valEncoded := valEncoded st; encodeCheck := 0 |}
  else if keyEncoded st then
    if c =? 43 then st else check_value st c
  else if c =? 37 then
    {| seen_equals := false; keyEncoded := false;
       valEncoded := valEncoded st; encodeCheck := 1 |}
  else match encodeCheck st, hex_value c with
       | S n, Some _ =>
           {| seen_equals := false; keyEncoded := (S (S n) =? 3)%nat;
              valEncoded := valEncoded st; encodeCheck := S (S n) |}
       | _, _ =>
           {| seen_equals := false; keyEncoded := false;
              valEncoded := valEncoded st; encodeCheck := 0 |}
       end.

Definition scan_piece (piece : jsstring) : scan :=
  fold_left scan_unit piece scan_start.

(** [querystring.unescapeBuffer(s)]: the lenient decoder.  A percent sign
    that two hexadecimal digits do not follow stands for itself; every
    other unit is stored in one byte. *)
Fixpoint unescapeBuffer (s : jsstring) : list N :=
  match s with
  | [] => []
  | c :: tail =>
      if c =? 37 then
        match tail with
        | h :: (l :: rest) as tail' =>
            match hex_value h, hex_value l with
            | Some hv, Some lv => (16 * hv + lv) :: unescapeBuffer rest
            | Some _, None => 37 :: h :: unescapeBuffer tail'
            | None, _ => 37 :: unescapeBuffer tail
            end
        | _ => 37 :: unescapeBuffer tail
        end
      else (c mod 256) :: unescapeBuffer tail
  end.

(** [querystring.unescape(s)]: [decodeURIComponent], and the lenient
    decoder read as UTF-8 where that throws. *)
Definition qsUnescape (s : jsstring) : jsstring :=
  match decodeURIComponent s with
  | Normal r => r
  | Throw _ => utf8_text (unescapeBuffer s)
  end.

(** A name or a value: its plus signs read as spaces, and decoded when it
    is not empty and an escape was seen ([encoded]). *)
Definition qs_decode (encoded : bool) (raw : jsstring) : jsstring :=
  let text := plus_to_space raw in
  match text with
  | [] => text
  | _ :: _ => if encoded then qsUnescape text else text
  end.

(** The parsed object has no prototype: every name is an ordinary key. *)
Definition addKeyValue (obj : gmap jsstring qs_value) (key value : jsstring)
  : gmap jsstring qs_value :=
  match obj !! key with
  | None => <[key := QText value]> obj
  | Some (QText first) => <[key := QList [first; value]]> obj
  | Some (QList l) => <[key := QList (l ++ [value])]> obj
  end.

(** The name and the value of one piece: the piece is cut at its first
    equals sign, and is all name when it has none. *)
Definition qs_pair (piece : jsstring) : jsstring * jsstring :=
  let eq := indexOf piece 61 in
  if (eq <? 0)%Z then (piece, [])
  else (take (Z.to_nat eq) piece, drop (Z.to_nat eq + 1) piece).

(** An empty piece adds nothing. *)
Definition qs_add (obj : gmap jsstring qs_value) (piece : jsstring)
  : gmap jsstring qs_value :=
  match piece with
  | [] => obj
  | _ :: _ =>
      let (name, value) := qs_pair piece in
      let seen := scan_piece piece in
      addKeyValue obj (qs_decode (keyEncoded seen) name)
                      (qs_decode (valEncoded seen) value)
  end.

Definition maxKeys : nat := 1000.

Definition parseQuerystring (qs : jsstring) : gmap jsstring qs_value :=
  match qs with
  | [] => ∅
  | _ :: _ => fold_left qs_add (take maxKeys (split_on 38 [] qs)) ∅
  end.

(** ** The request stream and the promise of addBody *)

Inductive stream_event : Type :=
| Data (chunk : Buffer)
| End
| Error (cause : js_error).

Inductive promise (A : Type) : Type :=
| Pending
| Fulfilled (value : A)
| Rejected (reason : js_error).
Arguments Pending {A}.
Arguments Fulfilled {A} value.
Arguments Rejected {A} reason.

(** [resolve] and [reject] settle a pending promise and do nothing to a
    settled one. *)
Definition resolve {A : Type} (p : promise A) (a : A) : promise A :=
  match p with
  | Pending => Fulfilled a
  | _ => p
  end.

Definition reject {A : Type} (p : promise A) (e : js_error) : promise A :=
  match p with
  | Pending => Rejected e
  | _ => p
  end.

(** [p.then(f)]: a value goes through [f], whose thrown error rejects; a
    rejection and a pending promise pass through. *)
Definition then_ {A B : Type} (p : promise A) (f : A -> completion B) : promise B :=
  match p with
  | Pending => Pending
  | Rejected e => Rejected e
  | Fulfilled a =>
      match f a with
      | Normal b => Fulfilled b
      | Throw e => Rejected e
      end
  end.

(** The executor of the promise: the array [chunks] and the promise the
    three listeners act on. *)
Record reader : Type := {
  chunks : list Buffer;
  settled : promise Buffer
}.

Definition listen (r : reader) (ev : stream_event) : reader :=
  match ev with
  | Error cause => {| chunks := chunks r; settled := reject (settled r) cause |}
  | Data chunk => {| chunks := chunks r ++ [chunk]; settled := settled r |}
  | End => {| chunks := chunks r;
              settled := resolve (settled r) (Buffer_concat (chunks r)) |}
  end.

(** The promise after the stream has emitted [events], in that order. *)
Definition read_stream (events : list stream_event) : promise Buffer :=
  settled (fold_left listen events {| chunks := []; settled := Pending |}).

(** ** addBody *)

Inductive body_value : Type :=
| Undefined
| Parsed (v : json)
| Query (q : gmap jsstring qs_value)
| Raw (data : Buffer).

Definition contentEncoding : encoding := utf8.

(** The first [then] callback. *)
Definition decode_body (contentType : jsstring) (data : Buffer) : completion body_value :=
  if regex_test true (js "application/json") contentType then
    if (0 <? length data)%nat
    then v ← JSON_parse (Buffer_toString data contentEncoding); mret (Parsed v)
    else mret Undefined
  else if regex_test true (js "application/x-www-form-urlencoded") contentType then
    mret (Query (parseQuerystring (Buffer_toString data contentEncoding)))
  else mret (Raw data).

Definition addBody (req : IncomingMessage) (events : list stream_event)
  : promise (extended body_value) :=
  let contentType := default [] (content_type (headers req)) in
  then_ (then_ (read_stream events) (decode_body contentType))
        (fun body => mret (Object_assign req body)).

(** ** addUrlObj *)

(** The object [url.parse(urlString, true)] returns; a part the URL lacks
    is [null].  With the second argument set, [query] is a parsed
    object. *)
Module NodeUrl.
Record t : Type := {
  protocol : option jsstring;
  slashes : option bool;
  auth : option jsstring;
  host : option jsstring;
  port : option jsstring;
  hostname : option jsstring;
  hash : option jsstring;
  search : option jsstring;
  query : gmap jsstring qs_value;
  pathname : option jsstring;
  path : option jsstring;
  href : jsstring
}.
End NodeUrl.

(** The interface [Url] of the source. *)
Record Url : Type := {
  protocol : option jsstring;
  auth : option jsstring;
  hostname : option jsstring;
  port : option jsstring;
  pathname : option jsstring;
  query : gmap jsstring qs_value;
  hash : option jsstring
}.

(** [url.parse] on a string throws in one documented case: a URIError is
    thrown if the [auth] property is present but cannot be decoded.  On a
    URL that begins with "http://" the parser takes what follows the two
    slashes up to the first slash, question mark or number sign (a
    backslash in front of these is read as a slash) for the authority, and
    when the authority holds an at sign it decodes the text in front of the
    last one with [decodeURIComponent] and makes it the [auth]. *)
Definition ends_authority (c : N) : bool :=
  (c =? 47) || (c =? 63) || (c =? 35) || (c =? 92).

Fixpoint authority (rest : jsstring) : jsstring :=
  match rest with
  | [] => []
  | c :: tail => if ends_authority c then [] else c :: authority tail
  end.

(** [s.slice(0, atSign)] for the last at sign of [s], when there is one. *)
Fixpoint before_last_at (s : jsstring) : option jsstring :=
  match s with
  | [] => None
  | c :: tail =>
      match before_last_at tail with
      | Some text => Some (c :: text)
      | None => if c =? 64 then Some [] else None
      end
  end.

(** The text url.parse decodes as the [auth] of a URL that begins with
    "http://". *)
Definition http_auth (urlString : jsstring) : option jsstring :=
  if match_here false (js "http://") urlString
  then before_last_at (authority (drop 7 urlString))
  else None.

(** [url.parse(urlString, parseQueryString)] as far as that step: the
    URIError of [decodeURIComponent] leaves url.parse.  What url.parse
    does on every other URL, and what it returns once the text is decoded,
    is [others]. *)
Definition url_parse (others : jsstring -> bool -> completion NodeUrl.t)
    (urlString : jsstring) (parseQueryString : bool) : completion NodeUrl.t :=
  match http_auth urlString with
  | Some text => _ ← decodeURIComponent text; others urlString parseQueryString
  | None => others urlString parseQueryString
  end.

(** [url.parse] is Node's and is taken as a parameter: a function of the
    URL text and of the flag, which may throw. *)
Definition addUrlObj (parseUrl : jsstring -> bool -> completion NodeUrl.t)
    (req : IncomingMessage) : completion (extended Url) :=
  parsed ← parseUrl (url req) true;
  mret (Object_assign req
          {| protocol := NodeUrl.protocol parsed;
             auth := NodeUrl.auth parsed;
             hostname := NodeUrl.hostname parsed;
             port := NodeUrl.port parsed;
             pathname := NodeUrl.pathname parsed;
             query := NodeUrl.query parsed;
             hash := NodeUrl.hash parsed |}).

(** ** addCookies *)

(** [cookies[name] = value] on an object made by an object literal.  The
    object inherits the accessor [__proto__] of [Object.prototype]; an
    assignment under that name runs the setter, which ignores a value that
    is neither an object nor [null], and no property is created.  Every
    other name becomes, or updates, an own property. *)
Definition object_set (obj : gmap jsstring jsstring) (name value : jsstring)
  : gmap jsstring jsstring :=
  if same_text name (js "__proto__") then obj else <[name := value]> obj.

(** The callback of [forEach]. *)
Definition add_cookie (cookies : gmap jsstring jsstring) (cookieString : jsstring)
  : completion (gmap jsstring jsstring) :=
  let splitAt := indexOf cookieString 61 in
  let name := slice cookieString 0 (Some splitAt) in
  let value := slice cookieString (splitAt + 1) None in
  decoded ← decodeURIComponent value;
  mret (object_set cookies name decoded).

(** [forEach]: the callback runs on each element in turn, and an error it
    throws ends the loop. *)
Fixpoint forEach {S A : Type} (f : S -> A -> completion S) (l : list A) (s : S)
  : completion S :=
  match l with
  | [] => mret s
  | x :: rest => s' ← f s x; forEach f rest s'
  end.

(** ToBoolean of a header value: of the values a header can take only the
    empty string is falsy. *)
Definition truthy (h : header_value) : bool :=
  match h with
  | HString [] => false
  | _ => true
  end.

Definition addCookies (req : IncomingMessage)
  : completion (extended (gmap jsstring jsstring)) :=
  match cookie (headers req) with
  | Some cookieHeader =>
      if truthy cookieHeader then
        let cookieHeaderString :=
          match cookieHeader with
          | HArray instances => join (js ";") instances
          | HString s => s
          end in
        let cookieStrings := split_semicolon cookieHeaderString in
        cookies ← forEach add_cookie cookieStrings ∅;
        mret (Object_assign req cookies)
      else mret (Object_assign req ∅)
  | None => mret (Object_assign req ∅)
  end.

(** ** Vocabulary of the specification *)

(** [pat] occurs in [s]. *)
Definition contains (s pat : jsstring) : Prop :=
  ∃ before after, s = before ++ pat ++ after.

(** [pat] occurs in [s] up to the case of ASCII letters. *)
Definition contains_ci (s pat : jsstring) : Prop :=
  ∃ before mid after,
    s = before ++ mid ++ after ∧ List.map canonicalize mid = List.map canonicalize pat.

(** The unit compared by a match, with or without the [i] flag. *)
Definition fold_unit (ignore_case : bool) (c : N) : N :=
  if ignore_case then canonicalize c else c.

(** [s] ends with [pat]. *)
Definition ends_with (s pat : jsstring) : Prop :=
  ∃ before, s = before ++ pat.

(** The header was sent once with exactly the value [s]. *)
Definition sent_as (h : option header_value) (s : jsstring) : Prop :=
  h = Some (HString s) ∨ h = Some (HArray [s]).

(** The header is present and [pat] occurs in its value, or in one of its
    values when it arrived as several. *)
Definition mentions (h : option header_value) (pat : jsstring) : Prop :=
  match h with
  | None => False
  | Some (HString s) => contains s pat
  | Some (HArray l) => Exists (fun s => contains s pat) l
  end.

(** The stream events before the terminal one carry data only. *)
Definition is_data (ev : stream_event) : Prop :=
  match ev with
  | Data _ => True
  | _ => False
  end.

Definition data_chunks (events : list stream_event) : list Buffer :=
  omap (fun ev => match ev with Data chunk => Some chunk | _ => None end) events.

(** The three decoding rules of addBody, in the order they are tried. *)
Definition json_rule (data : Buffer) : completion body_value :=
  if (0 <? length data)%nat
  then v ← JSON_parse (Buffer_toString data utf8); mret (Parsed v)
  else mret Undefined.

Definition form_rule (data : Buffer) : completion body_value :=
  mret (Query (parseQuerystring (Buffer_toString data utf8))).

Definition raw_rule (data : Buffer) : completion body_value :=
  mret (Raw data).

(** The promise addBody returns when [rule] is the one applied. *)
Definition decoded_by (rule : Buffer -> completion body_value)
    (req : IncomingMessage) (events : list stream_event)
  : promise (extended body_value) :=
  then_ (then_ (read_stream events) rule) (fun body => mret (Object_assign req body)).

(** The failure kinds the specification names, read on an error value: an
    error of that name which carries, as one of its own properties, the
    content type or the underlying cause. *)
Definition carries (e : js_error) (p : js_property) : Prop :=
  ∃ key, In (key, p) (error_own e).

Definition BodyParseError (e : js_error) (contentType message : jsstring) : Prop :=
  error_name e = js "BodyParseError" ∧
  carries e (PText contentType) ∧
  contains (error_message e) message.

Definition StreamError (e : js_error) (cause : js_error) : Prop :=
  error_name e = js "StreamError" ∧ carries e (PError cause).

(** The name and the value addCookies cuts out of one piece of the header. *)
Definition cookie_name (piece : jsstring) : jsstring :=
  slice piece 0 (Some (indexOf piece 61)).

Definition cookie_value (piece : jsstring) : jsstring :=
  slice piece (indexOf piece 61 + 1) None.

(** The values met under [name], in the order of the text. *)
Definition values_of (name : jsstring) (entries : list (jsstring * jsstring))
  : list jsstring :=
  List.map snd (List.filter (fun e => same_text e.1 name) entries).

(** One value stays a text, several become a list. *)
Definition collected (values : list jsstring) : option qs_value :=
  match values with
  | [] => None
  | [v] => Some (QText v)
  | _ => Some (QList values)
  end.

(** The parsed object holds, under every name, what the entries give. *)
Definition represents (obj : gmap jsstring qs_value)
    (entries : list (jsstring * jsstring)) : Prop :=
  ∀ name, obj !! name = collected (values_of name entries).

(** The entry the parser makes of one piece, and the entries of a list of
    pieces. *)
Definition qs_entry (piece : jsstring) : jsstring * jsstring :=
  (qs_decode (keyEncoded (scan_piece piece)) (qs_pair piece).1,
   qs_decode (valEncoded (scan_piece piece)) (qs_pair piece).2).

Definition entries_of (pieces : list jsstring) : list (jsstring * jsstring) :=
  List.map qs_entry (List.filter (fun piece => negb (same_text piece [])) pieces).

(** A form body as its sender writes it: pieces separated by ampersands,
    each a name alone or a name, an equals sign and a value. *)
Definition piece_text (p : jsstring * option jsstring) : jsstring :=
  match p.2 with
  | Some value => p.1 ++ 61 :: value
  | None => p.1
  end.

Definition form_text (pieces : list (jsstring * option jsstring)) : jsstring :=
  join [38] (List.map piece_text pieces).

(** The piece holds no ampersand and its name no equals sign. *)
Definition well_cut (p : jsstring * option jsstring) : Prop :=
  (38 ∉ piece_text p) ∧ (61 ∉ p.1).

Definition written (p : jsstring * option jsstring) : bool :=
  match piece_text p with
  | [] => false
  | _ :: _ => true
  end.

(** [t] is what [raw] reads as: wherever [raw], its plus signs taken for
    spaces, is well-formed percent-encoding, [t] is its decoding. *)
Definition reads_as (raw t : jsstring) : Prop :=
  ∀ r, decodeURIComponent (List.map (fun c => if c =? 43 then 32 else c) raw) = Normal r →
       t = r.

Definition entry_of (p : jsstring * option jsstring) (e : jsstring * jsstring) : Prop :=
  reads_as p.1 e.1 ∧ reads_as (default [] p.2) e.2.

(** The text decodeURIComponent gives, when it gives one. *)
Definition decoded (s : jsstring) : option jsstring :=
  match decodeURIComponent s with
  | Normal r => Some r
  | Throw _ => None
  end.

(** The pieces addCookies iterates over: those of the header, of its
    instances joined when it is an array, and none when it is the empty
    string. *)
Definition cookie_pieces (h : header_value) : list jsstring :=
  if truthy h then
    split_semicolon match h with
                    | HArray instances => join (js ";") instances
                    | HString s => s
                    end
  else [].

(** The last piece whose name is [name]. *)
Fixpoint last_named (name : jsstring) (pieces : list jsstring) : option jsstring :=
  match pieces with
  | [] => None
  | piece :: rest =>
      match last_named name rest with
      | Some later => Some later
      | None => if same_text (cookie_name piece) name then Some piece else None
      end
  end.

(** ** Sample inputs *)

Definition bytes (s : string) : Buffer := list_byte_of_string s.
Arguments bytes s%_string.

(** A text between double quotes. *)
Definition quoted (s : string) : string :=
  String "034" (s ++ String "034" EmptyString).
Arguments quoted s%_string.

(** A request for "/" whose only header is the content type. *)
Definition request_of_type (ct : jsstring) : IncomingMessage :=
  {| headers := {| content_type := Some ct; x_requested_with := None;
                   accept := None; cookie := None |};
     url := js "/" |}.

(** A request for "/" whose only header is the cookie header. *)
Definition request_with_cookie (h : header_value) : IncomingMessage :=
  {| headers := {| content_type := None; x_requested_with := None;
                   accept := None; cookie := Some h |};
     url := js "/" |}.

(** A request for "/" without headers. *)
Definition bare_request : IncomingMessage :=
  {| headers := {| content_type := None; x_requested_with := None;
                   accept := None; cookie := None |};
     url := js "/" |}.

(** A request for [u] without headers. *)
Definition request_for (u : jsstring) : IncomingMessage :=
  {| headers := {| content_type := None; x_requested_with := None;
                   accept := None; cookie := None |};
     url := u |}.

(** A form body of a thousand and one pairs: a thousand times [a=1], then
    [b=2]. *)
Definition many_pairs : Buffer :=
  List.concat (replicate 1000 (bytes "a=1&")) ++ bytes "b=2".

(** The error of a connection closed under the reader. *)
Definition hang_up : js_error := JsError (js "Error") (js "socket hang up") [].

(** url.parse of a request made for a path alone, as far as the sample
    needs it: the path is the URL, every other part is absent. *)
Definition parse_path_only (urlString : jsstring) (parseQueryString : bool)
  : completion NodeUrl.t :=
  Normal {| NodeUrl.protocol := None; NodeUrl.slashes := None; NodeUrl.auth := None;
            NodeUrl.host := None; NodeUrl.port := None; NodeUrl.hostname := None;
            NodeUrl.hash := None; NodeUrl.search := None; NodeUrl.query := ∅;
            NodeUrl.pathname := Some urlString; NodeUrl.path := Some urlString;
            NodeUrl.href := urlString |}.

(** ** Vocabulary of the further properties *)

(** The event settles the promise of a reader that is still pending. *)
Definition is_terminal (ev : stream_event) : Prop :=
  match ev with
  | Data _ => False
  | _ => True
  end.

(** What a promise settles with, the request left aside. *)
Definition settles_with {F : Type} (p : promise (extended F)) : promise F :=
  match p with
  | Pending => Pending
  | Fulfilled r => Fulfilled (field r)
  | Rejected e => Rejected e
  end.

(** What a transform returns, the request left aside. *)
Definition returns {F : Type} (c : completion (extended F)) : completion F :=
  match c with
  | Normal r => Normal (field r)
  | Throw e => Throw e
  end.

(** The text of one cookie, [name=value], and the Cookie header a client
    builds from its cookies: their texts separated by a semicolon and a
    space. *)
Definition cookie_pair (p : jsstring * jsstring) : jsstring := p.1 ++ 61 :: p.2.

Definition cookie_header (pairs : list (jsstring * jsstring)) : jsstring :=
  join (js "; ") (List.map cookie_pair pairs).

Definition leading_whitespace (s : jsstring) : Prop :=
  match s with
  | c :: _ => is_whitespace c = true
  | [] => False
  end.

(** A cookie that needs no escaping: no semicolon, no equals sign and no
    leading white space in its name, which is not [__proto__]; no semicolon
    and no percent sign in its value. *)
Definition plain_cookie (p : jsstring * jsstring) : Prop :=
  (59 ∉ p.1) ∧ (61 ∉ p.1) ∧ ¬ leading_whitespace p.1 ∧ p.1 ≠ js "__proto__" ∧
  (59 ∉ p.2) ∧ (37 ∉ p.2).

(** The bytes of the four white space characters of JSON. *)
Definition json_space_byte (b : byte) : Prop :=
  is_json_space (Byte.to_N b) = true.

(** * Properties *)

(** A unit that does not occur in a literal text. *)
Ltac absent_from_text :=
  let H := fresh in
  intros H; apply list_elem_of_In in H; vm_compute in H; intuition discriminate.

(** ** The models at work *)

(** Bytes below 128 are their own text. *)
Lemma utf8_text_ascii (bs : list N) :
  Forall (fun b => b <= 127) bs → utf8_text bs = bs.
Proof.
  unfold utf8_text. induction 1 as [|b bs Hb _ IH]; [reflexivity|].
  simpl utf8_run. unfold utf8_step, utf8_lead. simpl missing.
  apply N.leb_le in Hb as Hb'. rewrite Hb'. simpl.
  unfold utf16. destruct (N.ltb_spec b 65536); [|lia].
  simpl. f_equal. exact IH.
Qed.

(** Two bytes of one code point, and a byte that begins nothing. *)
Example Buffer_toString_sample :
  Buffer_toString [x63; x61; x66; xc3; xa9; xff]%byte utf8 = js "caf" ++ [233; 65533].
Proof. reflexivity. Qed.

(** An escape sequence of three octets is one code point; a lone
    continuation octet is refused. *)
Example decodeURIComponent_sample :
  decodeURIComponent (js "%E2%82%AC=a%2Fb") = Normal ([8364] ++ js "=a/b") ∧
  decodeURIComponent (js "%82") = Throw URIError.
Proof. split; reflexivity. Qed.

(** Nested containers, the three words, a number with an exponent and an
    escaped string; a trailing comma is refused at its closing bracket. *)
Example JSON_parse_sample :
  JSON_parse (js "{" ++ js (quoted "k") ++ js ": [true, null, -1.5e3, "
              ++ js (quoted "a\u0041") ++ js "]}")
  = Normal (JObject [(js "k", JArray [JBool true; JNull; JNumber (js "-1.5e3");
                                      JString (js "aA")])]) ∧
  JSON_parse (js "[1,]")
  = Throw (SyntaxError (js "Unexpected token in JSON at position 3")).
Proof. split; reflexivity. Qed.

(** ** Text matching *)

Lemma same_text_eq (a b : jsstring) : same_text a b = true ↔ a = b.
Proof.
  revert b; induction a as [|x a IH]; intros [|y b]; simpl; try (split; congruence).
  rewrite andb_true_iff, N.eqb_eq, IH. split.
  - intros [-> ->]; reflexivity.
  - intros [= -> ->]; auto.
Qed.

Lemma same_text_refl (a : jsstring) : same_text a a = true.
Proof. apply same_text_eq; reflexivity. Qed.

Lemma same_unit_fold ic a b :
  same_unit ic a b = true ↔ fold_unit ic a = fold_unit ic b.
Proof. destruct ic; simpl; apply N.eqb_eq. Qed.

Lemma match_here_spec ic pat s :
  match_here ic pat s = true ↔
  ∃ mid rest, s = mid ++ rest ∧ List.map (fold_unit ic) mid = List.map (fold_unit ic) pat.
Proof.
  revert s; induction pat as [|p pat IH]; intros s; simpl.
  - split; [intros _; exists [], s; auto | auto].
  - destruct s as [|c s].
    + split; [discriminate|]. intros (mid & rest & Hs & Hm).
      destruct mid; [discriminate | discriminate].
    + rewrite andb_true_iff, same_unit_fold, IH. split.
      * intros (Hc & mid & rest & -> & Hm).
        exists (c :: mid), rest; simpl; split; [reflexivity | congruence].
      * intros (mid & rest & Hs & Hm). destruct mid as [|m mid]; [discriminate|].
        simpl in Hs, Hm. injection Hs as -> ->. injection Hm as Hc Hm.
        split; [congruence | exists mid, rest; auto].
Qed.

Lemma regex_test_spec ic pat s :
  regex_test ic pat s = true ↔
  ∃ before mid after,
    s = before ++ mid ++ after ∧
    List.map (fold_unit ic) mid = List.map (fold_unit ic) pat.
Proof.
  induction s as [|c s IH]; simpl; rewrite orb_true_iff, match_here_spec.
  - split.
    + intros [(mid & rest & Hs & Hm) | Hf]; [|discriminate].
      exists [], mid, rest; auto.
    + intros (before & mid & after & Hs & Hm). left.
      destruct before; [|discriminate]. exists mid, after; auto.
  - rewrite IH. split.
    + intros [(mid & rest & Hs & Hm) | (before & mid & after & -> & Hm)].
      * exists [], mid, rest; auto.
      * exists (c :: before), mid, after; auto.
    + intros (before & mid & after & Hs & Hm).
      destruct before as [|b before]; simpl in Hs.
      * left; exists mid, after; auto.
      * injection Hs as -> ->. right; exists before, mid, after; auto.
Qed.

Lemma regex_test_contains pat s :
  regex_test false pat s = true ↔ contains s pat.
Proof.
  rewrite regex_test_spec. unfold contains, fold_unit. split.
  - intros (before & mid & after & -> & Hm).
    rewrite !List.map_id in Hm. subst mid. eauto.
  - intros (before & after & ->). exists before, pat, after; auto.
Qed.

Lemma regex_test_contains_ci pat s :
  regex_test true pat s = true ↔ contains_ci s pat.
Proof. rewrite regex_test_spec. reflexivity. Qed.

Lemma regex_test_at_end_spec pat s :
  regex_test_at_end pat s = true ↔ ends_with s pat.
Proof.
  unfold ends_with.
  induction s as [|c s IH]; simpl; rewrite orb_true_iff, same_text_eq.
  - split.
    + intros [-> | Hf]; [exists []; reflexivity | discriminate].
    + intros (before & Hs). left. symmetry in Hs.
      apply app_eq_nil in Hs as [_ ->]; reflexivity.
  - rewrite IH. split.
    + intros [-> | (before & ->)]; [exists []; reflexivity | exists (c :: before); reflexivity].
    + intros ([|b before] & Hs); simpl in Hs.
      * left; congruence.
      * injection Hs as -> ->. right; eauto.
Qed.

(** ** Headers that arrive as several values *)

Lemma contains_across (sep : N) (x t pat : jsstring) :
  sep ∉ pat → pat ≠ [] →
  contains (x ++ sep :: t) pat ↔ contains x pat ∨ contains t pat.
Proof.
  intros Hsep Hpat. unfold contains. split.
  - intros (a & b & Heq).
    apply app_eq_inv in Heq as [(k & Hx & Hk) | (k & Ha & Hk)].
    + left. apply app_eq_inv in Hk as [(k' & Hp & Hk') | (k' & Hp & Hk')].
      * destruct k' as [|c k'].
        -- rewrite app_nil_r in Hp. subst. exists a, []. rewrite app_nil_r. reflexivity.
        -- exfalso. injection Hk' as <- _. apply Hsep. rewrite Hp.
           apply elem_of_app; right; left.
      * subst. exists a, k'. reflexivity.
    + destruct k as [|c k].
      * exfalso. destruct pat as [|c pat]; [done|].
        injection Hk as -> _. apply Hsep; left.
      * right. injection Hk as _ ->. exists k, b. reflexivity.
  - intros [(a & b & ->) | (a & b & ->)].
    + exists a, (b ++ sep :: t). rewrite <- !app_assoc. reflexivity.
    + exists (x ++ sep :: a), b. rewrite <- app_assoc. reflexivity.
Qed.

Lemma contains_join (sep : N) (l : list jsstring) (pat : jsstring) :
  sep ∉ pat → pat ≠ [] →
  contains (join [sep] l) pat ↔ Exists (fun s => contains s pat) l.
Proof.
  intros Hsep Hpat. induction l as [|x [|y l] IH].
  - simpl. rewrite Exists_nil. split; [|done].
    intros (a & b & Heq). symmetry in Heq.
    apply app_eq_nil in Heq as [_ Heq]. apply app_eq_nil in Heq as [? _]. done.
  - simpl. rewrite Exists_cons, Exists_nil. tauto.
  - change (join [sep] (x :: y :: l)) with (x ++ sep :: join [sep] (y :: l)).
    rewrite contains_across, IH, (Exists_cons _ x) by assumption. reflexivity.
Qed.

Lemma join_single (sep : N) (l : list jsstring) (pat : jsstring) :
  sep ∉ pat → pat ≠ [] → join [sep] l = pat ↔ l = [pat].
Proof.
  intros Hsep Hpat. destruct l as [|x [|y l]].
  - simpl. split; [intros <-; done | discriminate].
  - simpl. split; [intros ->; reflexivity | intros [= ->]; reflexivity].
  - change (join [sep] (x :: y :: l)) with (x ++ sep :: join [sep] (y :: l)).
    split; [|discriminate]. intros <-. exfalso. apply Hsep.
    apply elem_of_app; right; left.
Qed.

(** ** addXhr *)

Lemma loose_equals_sent_as (h : option header_value) (s : jsstring) :
  44 ∉ s → s ≠ [] → loose_equals h s = true ↔ sent_as h s.
Proof.
  intros Hsep Hs. unfold sent_as. destruct h as [[x|l]|]; simpl.
  - rewrite same_text_eq. split; [intros ->; auto | intros [[= ->] | [=]]; reflexivity].
  - rewrite same_text_eq. change (js ",") with [44].
    rewrite join_single by assumption.
    split; [intros ->; auto | intros [[=] | [= ->]]; reflexivity].
  - split; [discriminate | intros [[=] | [=]]].
Qed.

Lemma regex_test_mentions (h : option header_value) (pat : jsstring) :
  44 ∉ pat → pat ≠ [] → regex_test false pat (js "undefined") = false →
  regex_test false pat (ToString h) = true ↔ mentions h pat.
Proof.
  intros Hsep Hpat Hundef.
  destruct h as [[x|l]|]; unfold ToString, header_text, mentions.
  - apply regex_test_contains.
  - rewrite regex_test_contains. change (js ",") with [44].
    apply contains_join; assumption.
  - rewrite Hundef. split; [discriminate | tauto].
Qed.

(** C7. For every request, addXhr sets [xhr] to true if and only if the
    x-requested-with header was sent exactly as "XMLHttpRequest", or the raw
    URL (query string included) ends with ".json", or the accept header does
    not mention "text/html"; an absent accept header mentions nothing, so it
    yields true.  The request itself is handed back. *)
Theorem addXhr_true_iff (req : IncomingMessage) :
  request (addXhr req) = req ∧
  (field (addXhr req) = true ↔
     sent_as (x_requested_with (headers req)) (js "XMLHttpRequest") ∨
     ends_with (url req) (js ".json") ∨
     ¬ mentions (accept (headers req)) (js "text/html")).
Proof.
  split; [reflexivity|]. unfold addXhr; simpl field.
  rewrite !orb_true_iff, negb_true_iff, regex_test_at_end_spec.
  rewrite loose_equals_sent_as.
  - rewrite <- (regex_test_mentions (accept (headers req)) (js "text/html")).
    + rewrite not_true_iff_false. tauto.
    + absent_from_text.
    + discriminate.
    + reflexivity.
  - absent_from_text.
  - discriminate.
Qed.

(** ** Reading the stream *)

Lemma listen_settled (events : list stream_event) (r : reader) :
  settled r ≠ Pending → settled (fold_left listen events r) = settled r.
Proof.
  revert r; induction events as [|ev events IH]; intros r Hr; [reflexivity|].
  simpl fold_left. rewrite IH.
  - destruct ev; simpl; [reflexivity | |]; destruct (settled r); done.
  - destruct ev; simpl; [assumption | |]; destruct (settled r); done.
Qed.

Lemma listen_fulfilled_iff (events : list stream_event) (r : reader) (data : Buffer) :
  settled r = Pending →
  settled (fold_left listen events r) = Fulfilled data ↔
  ∃ pre post, events = pre ++ End :: post ∧ Forall is_data pre ∧
              data = Buffer_concat (chunks r ++ data_chunks pre).
Proof.
  revert r; induction events as [|ev events IH]; intros r Hr.
  - simpl. rewrite Hr. split; [discriminate|].
    intros (pre & post & Heq & _). destruct pre; discriminate.
  - simpl fold_left. destruct ev as [chunk| |cause].
    + rewrite IH by assumption. simpl. split.
      * intros (pre & post & -> & Hpre & ->).
        exists (Data chunk :: pre), post. repeat split.
        -- constructor; [exact I | assumption].
        -- simpl. rewrite <- app_assoc. reflexivity.
      * intros (pre & post & Heq & Hpre & ->).
        destruct pre as [|ev pre]; [discriminate|].
        injection Heq as <- ->. apply Forall_cons in Hpre as [_ Hpre].
        exists pre, post. repeat split; [assumption|].
        simpl. rewrite <- app_assoc. reflexivity.
    + rewrite listen_settled by (simpl; rewrite Hr; discriminate).
      simpl. rewrite Hr. simpl. split.
      * intros [= <-]. exists [], events. repeat split; [constructor|].
        simpl. rewrite app_nil_r. reflexivity.
      * intros (pre & post & Heq & Hpre & ->). destruct pre as [|ev pre].
        -- simpl. rewrite app_nil_r. reflexivity.
        -- injection Heq as <- _. apply Forall_cons in Hpre as [[] _].
    + rewrite listen_settled by (simpl; rewrite Hr; discriminate).
      simpl. rewrite Hr. simpl. split; [discriminate|].
      intros (pre & post & Heq & Hpre & _). destruct pre as [|ev pre]; [discriminate|].
      injection Heq as <- _. apply Forall_cons in Hpre as [[] _].
Qed.

Lemma listen_rejected_iff (events : list stream_event) (r : reader) (e : js_error) :
  settled r = Pending →
  settled (fold_left listen events r) = Rejected e ↔
  ∃ pre post, events = pre ++ Error e :: post ∧ Forall is_data pre.
Proof.
  revert r; induction events as [|ev events IH]; intros r Hr.
  - simpl. rewrite Hr. split; [discriminate|].
    intros (pre & post & Heq & _). destruct pre; discriminate.
  - simpl fold_left. destruct ev as [chunk| |cause].
    + rewrite IH by assumption. split.
      * intros (pre & post & -> & Hpre).
        exists (Data chunk :: pre), post. split; [reflexivity|].
        constructor; [exact I | assumption].
      * intros (pre & post & Heq & Hpre).
        destruct pre as [|ev pre]; [discriminate|].
        injection Heq as <- ->. apply Forall_cons in Hpre as [_ Hpre].
        exists pre, post. split; [reflexivity | assumption].
    + rewrite listen_settled by (simpl; rewrite Hr; discriminate).
      simpl. rewrite Hr. simpl. split; [discriminate|].
      intros (pre & post & Heq & Hpre). destruct pre as [|ev pre]; [discriminate|].
      injection Heq as <- _. apply Forall_cons in Hpre as [[] _].
    + rewrite listen_settled by (simpl; rewrite Hr; discriminate).
      simpl. rewrite Hr. simpl. split.
      * intros [= <-]. exists [], events. split; [reflexivity | constructor].
      * intros (pre & post & Heq & Hpre). destruct pre as [|ev pre].
        -- injection Heq as -> _. reflexivity.
        -- injection Heq as <- _. apply Forall_cons in Hpre as [[] _].
Qed.

Lemma listen_pending_iff (events : list stream_event) (r : reader) :
  settled r = Pending →
  settled (fold_left listen events r) = Pending ↔ Forall is_data events.
Proof.
  revert r; induction events as [|ev events IH]; intros r Hr.
  - simpl. split; [intros _; constructor | intros _; assumption].
  - simpl fold_left. destruct ev as [chunk| |cause].
    + rewrite IH by assumption. split.
      * intros H. constructor; [exact I | assumption].
      * intros H. apply Forall_cons in H as [_ H]. assumption.
    + rewrite listen_settled by (simpl; rewrite Hr; discriminate).
      simpl. rewrite Hr. simpl. split; [discriminate|].
      intros H. apply Forall_cons in H as [[] _].
    + rewrite listen_settled by (simpl; rewrite Hr; discriminate).
      simpl. rewrite Hr. simpl. split; [discriminate|].
      intros H. apply Forall_cons in H as [[] _].
Qed.

(** The stream completes with [data] exactly when its first terminal event
    is [End] and [data] is the concatenation of the chunks before it. *)
Lemma read_stream_fulfilled (events : list stream_event) (data : Buffer) :
  read_stream events = Fulfilled data ↔
  ∃ pre post, events = pre ++ End :: post ∧ Forall is_data pre ∧
              data = Buffer_concat (data_chunks pre).
Proof. unfold read_stream. rewrite listen_fulfilled_iff by reflexivity. reflexivity. Qed.

(** The stream fails with [e] exactly when its first terminal event is the
    error [e]. *)
Lemma read_stream_rejected (events : list stream_event) (e : js_error) :
  read_stream events = Rejected e ↔
  ∃ pre post, events = pre ++ Error e :: post ∧ Forall is_data pre.
Proof. unfold read_stream. apply listen_rejected_iff. reflexivity. Qed.

(** ** addBody *)

Lemma addBody_decoded (req : IncomingMessage) (events : list stream_event) :
  addBody req events =
  decoded_by (decode_body (default [] (content_type (headers req)))) req events.
Proof. reflexivity. Qed.

Lemma decoded_by_fulfilled rule req events data :
  read_stream events = Fulfilled data →
  decoded_by rule req events =
  match rule data with
  | Normal body => Fulfilled (Object_assign req body)
  | Throw e => Rejected e
  end.
Proof. intros H. unfold decoded_by. rewrite H. simpl. destruct (rule data); reflexivity. Qed.

Lemma decoded_by_ext rule rule' req events :
  (∀ data, rule data = rule' data) →
  decoded_by rule req events = decoded_by rule' req events.
Proof.
  intros H. unfold decoded_by. destruct (read_stream events); simpl; try reflexivity.
  rewrite H. reflexivity.
Qed.

Lemma decode_body_json ct data :
  contains_ci ct (js "application/json") → decode_body ct data = json_rule data.
Proof.
  intros H. apply regex_test_contains_ci in H. unfold decode_body. rewrite H. reflexivity.
Qed.

Lemma decode_body_form ct data :
  ¬ contains_ci ct (js "application/json") →
  contains_ci ct (js "application/x-www-form-urlencoded") →
  decode_body ct data = form_rule data.
Proof.
  intros Hj Hf. apply regex_test_contains_ci in Hf.
  rewrite <- regex_test_contains_ci, not_true_iff_false in Hj.
  unfold decode_body. rewrite Hj, Hf. reflexivity.
Qed.

Lemma decode_body_raw ct data :
  ¬ contains_ci ct (js "application/json") →
  ¬ contains_ci ct (js "application/x-www-form-urlencoded") →
  decode_body ct data = raw_rule data.
Proof.
  intros Hj Hf.
  rewrite <- regex_test_contains_ci, not_true_iff_false in Hj, Hf.
  unfold decode_body. rewrite Hj, Hf. reflexivity.
Qed.

Lemma JSON_parse_throws text e :
  JSON_parse text = Throw e →
  error_name e = js "SyntaxError" ∧ error_own e = [].
Proof.
  unfold JSON_parse. destruct (json_run _ _ _) as [pos|st].
  - intros [= <-]. split; reflexivity.
  - destruct (json_finish st); [discriminate|]. intros [= <-]. split; reflexivity.
Qed.

(** C1. For every request whose content-type header contains
    "application/json" in any letter case and whose stream completes with a
    buffer of length zero, addBody resolves, and the decoded body is the
    absent marker [Undefined]: not an error, not the JSON null, not the empty
    string. *)
Theorem addBody_json_empty_body
    (req : IncomingMessage) (events : list stream_event) (ct : jsstring) (data : Buffer) :
  content_type (headers req) = Some ct →
  contains_ci ct (js "application/json") →
  read_stream events = Fulfilled data →
  length data = 0%nat →
  ∃ body, addBody req events = Fulfilled (Object_assign req body) ∧
          body = Undefined ∧ body ≠ Parsed JNull ∧ body ≠ Parsed (JString []).
Proof.
  intros Hct Hjson Hread Hlen. exists Undefined.
  split; [|split; [reflexivity | split; discriminate]].
  rewrite addBody_decoded, Hct. simpl default.
  rewrite (decoded_by_fulfilled _ _ _ data Hread), decode_body_json by assumption.
  unfold json_rule. rewrite Hlen. reflexivity.
Qed.

Lemma addBody_json_empty_body_witness :
  ∃ body,
    addBody (request_of_type (js "Application/JSON; charset=utf-8")) [Data []; End]
    = Fulfilled (Object_assign (request_of_type (js "Application/JSON; charset=utf-8")) body) ∧
    body = Undefined ∧ body ≠ Parsed JNull ∧ body ≠ Parsed (JString []).
Proof.
  apply (addBody_json_empty_body
           (request_of_type (js "Application/JSON; charset=utf-8")) [Data []; End]
           (js "Application/JSON; charset=utf-8") []).
  - reflexivity.
  - exists [], (js "Application/JSON"), (js "; charset=utf-8"). split; reflexivity.
  - reflexivity.
  - reflexivity.
Defined.

(** C2, as the code has it. For every request whose content-type header
    contains "application/json" and whose stream completes with a non-empty
    buffer: when the UTF-8 text of the buffer is a JSON text, addBody
    resolves with exactly the value JSON.parse gives; when it is not,
    addBody fails with the very error JSON.parse throws, a SyntaxError with
    its message and no other property, so without any content type and
    without a wrapper. *)
Theorem addBody_json_body
    (req : IncomingMessage) (events : list stream_event) (ct : jsstring) (data : Buffer) :
  content_type (headers req) = Some ct →
  contains_ci ct (js "application/json") →
  read_stream events = Fulfilled data →
  length data ≠ 0%nat →
  (∀ v, JSON_parse (Buffer_toString data utf8) = Normal v →
        addBody req events = Fulfilled (Object_assign req (Parsed v))) ∧
  (∀ e, JSON_parse (Buffer_toString data utf8) = Throw e →
        addBody req events = Rejected e ∧
        error_name e = js "SyntaxError" ∧ error_own e = []).
Proof.
  intros Hct Hjson Hread Hlen.
  assert (Hrule : json_rule data =
                  v ← JSON_parse (Buffer_toString data utf8); mret (Parsed v)).
  { unfold json_rule. destruct data; [done | reflexivity]. }
  split; intros r Hparse.
  - rewrite addBody_decoded, Hct. simpl default.
    rewrite (decoded_by_fulfilled _ _ _ data Hread), decode_body_json by assumption.
    rewrite Hrule, Hparse. reflexivity.
  - split; [|exact (JSON_parse_throws _ _ Hparse)].
    rewrite addBody_decoded, Hct. simpl default.
    rewrite (decoded_by_fulfilled _ _ _ data Hread), decode_body_json by assumption.
    rewrite Hrule, Hparse. reflexivity.
Qed.

Lemma addBody_json_body_witness :
  (∀ v, JSON_parse (Buffer_toString (bytes ("{" ++ quoted "a" ++ ":1}")) utf8) = Normal v →
        addBody (request_of_type (js "application/json"))
                [Data (bytes ("{" ++ quoted "a")); Data (bytes ":1}"); End]
        = Fulfilled (Object_assign (request_of_type (js "application/json")) (Parsed v))) ∧
  (∀ e, JSON_parse (Buffer_toString (bytes ("{" ++ quoted "a" ++ ":1}")) utf8) = Throw e →
        addBody (request_of_type (js "application/json"))
                [Data (bytes ("{" ++ quoted "a")); Data (bytes ":1}"); End]
        = Rejected e ∧
        error_name e = js "SyntaxError" ∧ error_own e = []).
Proof.
  apply (addBody_json_body
           (request_of_type (js "application/json"))
           [Data (bytes ("{" ++ quoted "a")); Data (bytes ":1}"); End]
           (js "application/json") (bytes ("{" ++ quoted "a" ++ ":1}"))).
  - reflexivity.
  - exists [], (js "application/json"), []. split; reflexivity.
  - reflexivity.
  - discriminate.
Defined.

(** The body [{"a":1}] is decoded to the object with the one member a = 1. *)
Example addBody_json_object :
  addBody (request_of_type (js "application/json")) [Data (bytes ("{" ++ quoted "a" ++ ":1}")); End]
  = Fulfilled (Object_assign (request_of_type (js "application/json"))
                             (Parsed (JObject [(js "a", JNumber (js "1"))]))).
Proof. reflexivity. Qed.

(** C2 as the specification words it fails on the body [{bad]: the premises
    hold (the content type is JSON, the body is not empty and is not a JSON
    text), addBody does fail, but what it fails with is not a
    BodyParseError carrying the content type "json". *)
Lemma addBody_invalid_json_not_BodyParseError :
  contains_ci (js "application/json") (js "application/json") ∧
  read_stream [Data (bytes "{bad"); End] = Fulfilled (bytes "{bad") ∧
  (∃ e, JSON_parse (Buffer_toString (bytes "{bad") utf8) = Throw e) ∧
  (∃ e, addBody (request_of_type (js "application/json")) [Data (bytes "{bad"); End]
        = Rejected e) ∧
  ¬ (∃ e message,
       addBody (request_of_type (js "application/json")) [Data (bytes "{bad"); End]
       = Rejected e ∧
       BodyParseError e (js "json") message).
Proof.
  split; [exists [], (js "application/json"), []; split; reflexivity|].
  split; [reflexivity|].
  split; [eexists; vm_compute; reflexivity|].
  split; [eexists; vm_compute; reflexivity|].
  intros (e & message & Hrej & Hname & _).
  vm_compute in Hrej. injection Hrej as <-. vm_compute in Hname. discriminate.
Qed.

(** C3, as the code has it. When the first terminal event of the stream is
    an error, addBody fails with that very error value, whatever chunks came
    before it and whatever the content type is: nothing is decoded, and the
    cause is not wrapped. *)
Theorem addBody_stream_error
    (req : IncomingMessage) (pre post : list stream_event) (cause : js_error) :
  Forall is_data pre →
  addBody req (pre ++ Error cause :: post) = Rejected cause.
Proof.
  intros Hpre.
  assert (Hread : read_stream (pre ++ Error cause :: post) = Rejected cause).
  { apply read_stream_rejected. exists pre, post. split; [reflexivity | assumption]. }
  unfold addBody. rewrite Hread. reflexivity.
Qed.

Lemma addBody_stream_error_witness :
  addBody (request_of_type (js "application/json"))
          ([Data (bytes ("{" ++ quoted "a" ++ ":"))] ++ Error hang_up :: [End])
  = Rejected hang_up.
Proof.
  apply (addBody_stream_error (request_of_type (js "application/json"))
           [Data (bytes ("{" ++ quoted "a" ++ ":"))] [End] hang_up).
  repeat constructor.
Defined.

(** C3 as the specification words it fails on a stream that emits the error
    [hang_up] after one chunk: addBody fails, but with [hang_up] itself and
    not with a StreamError that carries it. *)
Lemma addBody_stream_error_not_StreamError :
  addBody bare_request [Data (bytes "ab"); Error hang_up] = Rejected hang_up ∧
  ¬ (∃ e, addBody bare_request [Data (bytes "ab"); Error hang_up] = Rejected e ∧
          StreamError e hang_up).
Proof.
  split; [reflexivity|].
  intros (e & Hrej & Hname & _).
  vm_compute in Hrej. injection Hrej as <-. vm_compute in Hname. discriminate.
Qed.

(** C4, as the code has it. For every request whose content type (the
    empty string when the header is absent) contains neither
    "application/json" nor "application/x-www-form-urlencoded": when the
    stream ends after data alone, addBody resolves, and the decoded body is
    the buffer made of the chunks in the order they arrived, one after the
    other, byte for byte; decoding adds no failure, so addBody fails exactly
    when the stream emits an error before it ends, with that error; and as
    long as the stream has emitted data alone addBody is pending. *)
Theorem addBody_unrecognized_type
    (req : IncomingMessage) (pre post : list stream_event) :
  ¬ contains_ci (default [] (content_type (headers req))) (js "application/json") →
  ¬ contains_ci (default [] (content_type (headers req)))
                (js "application/x-www-form-urlencoded") →
  Forall is_data pre →
  addBody req (pre ++ End :: post)
  = Fulfilled (Object_assign req (Raw (List.concat (data_chunks pre)))) ∧
  (∀ cause, addBody req (pre ++ Error cause :: post) = Rejected cause) ∧
  addBody req pre = Pending ∧
  (∀ events e, addBody req events = Rejected e ↔
               ∃ before after, events = before ++ Error e :: after ∧
                               Forall is_data before).
Proof.
  intros Hjson Hform Hpre.
  assert (Hraw : ∀ events, addBody req events = decoded_by raw_rule req events).
  { intros events. rewrite addBody_decoded. apply decoded_by_ext.
    intros data. apply decode_body_raw; assumption. }
  assert (Hfail : ∀ events e, addBody req events = Rejected e ↔
                              read_stream events = Rejected e).
  { intros events e. rewrite Hraw. unfold decoded_by.
    destruct (read_stream events); simpl; split; congruence. }
  repeat split.
  - rewrite Hraw.
    rewrite (decoded_by_fulfilled _ _ _ (Buffer_concat (data_chunks pre))); [reflexivity|].
    apply read_stream_fulfilled. exists pre, post. auto.
  - intros cause. apply Hfail, read_stream_rejected. exists pre, post. auto.
  - rewrite Hraw. unfold decoded_by, read_stream.
    rewrite (proj2 (listen_pending_iff pre {| chunks := []; settled := Pending |} eq_refl)
               Hpre).
    reflexivity.
  - intros H. apply read_stream_rejected, Hfail, H.
  - intros H. apply Hfail, read_stream_rejected, H.
Qed.

(** A request without a content type, its body sent in two chunks. *)
Lemma addBody_unrecognized_type_witness :
  addBody bare_request [Data (bytes "a"); Data (bytes "b"); End]
  = Fulfilled (Object_assign bare_request (Raw (bytes "ab"))) ∧
  addBody bare_request [Data (bytes "a"); Data (bytes "b"); Error hang_up]
  = Rejected hang_up ∧
  addBody bare_request [Data (bytes "a"); Data (bytes "b")] = Pending.
Proof.
  destruct (addBody_unrecognized_type bare_request
              [Data (bytes "a"); Data (bytes "b")] [])
    as (Hend & Herror & Hpending & _).
  - intros H. apply regex_test_contains_ci in H. vm_compute in H. discriminate.
  - intros H. apply regex_test_contains_ci in H. vm_compute in H. discriminate.
  - repeat constructor.
  - split; [exact Hend|]. split; [exact (Herror hang_up) | exact Hpending].
Defined.

(** C4 as it is worded fails on a request without a content type whose
    connection breaks: addBody fails, with the error of the stream, and
    resolves with nothing. *)
Lemma addBody_unrecognized_type_fails :
  content_type (headers bare_request) = None ∧
  addBody bare_request [Data (bytes "a"); Error hang_up] = Rejected hang_up ∧
  ¬ ∃ r, addBody bare_request [Data (bytes "a"); Error hang_up] = Fulfilled r.
Proof.
  split; [reflexivity|]. split; [reflexivity|].
  intros [r Hr]. vm_compute in Hr. discriminate.
Qed.

(** C5. The content type addBody dispatches on is the header, or the empty
    string when the header is absent, and the rules are tried in a fixed
    order by a substring match that ignores letter case: a content type that
    contains "application/json" is decoded by the JSON rule, also when it
    contains "application/x-www-form-urlencoded" as well; otherwise one that
    contains "application/x-www-form-urlencoded" is decoded by the form
    rule; every other one, the absent header among them, falls back to the
    raw buffer. *)
Theorem addBody_dispatch_order (req : IncomingMessage) (events : list stream_event) :
  (contains_ci (default [] (content_type (headers req))) (js "application/json") →
   addBody req events = decoded_by json_rule req events) ∧
  (¬ contains_ci (default [] (content_type (headers req))) (js "application/json") →
   contains_ci (default [] (content_type (headers req)))
               (js "application/x-www-form-urlencoded") →
   addBody req events = decoded_by form_rule req events) ∧
  (¬ contains_ci (default [] (content_type (headers req))) (js "application/json") →
   ¬ contains_ci (default [] (content_type (headers req)))
                 (js "application/x-www-form-urlencoded") →
   addBody req events = decoded_by raw_rule req events) ∧
  (content_type (headers req) = None →
   addBody req events = decoded_by raw_rule req events).
Proof.
  rewrite addBody_decoded. repeat split.
  - intros Hj. apply decoded_by_ext. intros data. apply decode_body_json; assumption.
  - intros Hj Hf. apply decoded_by_ext. intros data. apply decode_body_form; assumption.
  - intros Hj Hf. apply decoded_by_ext. intros data. apply decode_body_raw; assumption.
  - intros ->. apply decoded_by_ext. intros data. reflexivity.
Qed.

(** A content type naming both encodings is decoded as JSON. *)
Lemma addBody_dispatch_order_witness :
  addBody (request_of_type (js "application/x-www-form-urlencoded, Application/Json"))
          [Data (bytes ("{" ++ quoted "a" ++ ":1}")); End]
  = Fulfilled
      (Object_assign
         (request_of_type (js "application/x-www-form-urlencoded, Application/Json"))
         (Parsed (JObject [(js "a", JNumber (js "1"))]))).
Proof.
  transitivity
    (decoded_by json_rule
       (request_of_type (js "application/x-www-form-urlencoded, Application/Json"))
       [Data (bytes ("{" ++ quoted "a" ++ ":1}")); End]).
  - apply (addBody_dispatch_order
             (request_of_type (js "application/x-www-form-urlencoded, Application/Json"))
             [Data (bytes ("{" ++ quoted "a" ++ ":1}")); End]).
    exists (js "application/x-www-form-urlencoded, "), (js "Application/Json"), [].
    split; reflexivity.
  - reflexivity.
Defined.

(** ** querystring.parse *)

Lemma values_of_snoc name entries k v :
  values_of name (entries ++ [(k, v)]) =
  values_of name entries ++ (if same_text k name then [v] else []).
Proof.
  unfold values_of. rewrite List.filter_app, List.map_app. simpl.
  destruct (same_text k name); reflexivity.
Qed.

Lemma collected_text values first :
  collected values = Some (QText first) → values = [first].
Proof. destruct values as [|a [|b values]]; simpl; congruence. Qed.

Lemma collected_list values l :
  collected values = Some (QList l) → values = l ∧ (2 <= length l)%nat.
Proof.
  destruct values as [|a [|b values]]; simpl; try congruence.
  intros [= <-]. split; [reflexivity | simpl; lia].
Qed.

Lemma collected_long values v :
  (2 <= length values)%nat → collected (values ++ [v]) = Some (QList (values ++ [v])).
Proof.
  destruct values as [|a [|b values]]; simpl; try lia. reflexivity.
Qed.

Lemma addKeyValue_represents obj entries k v :
  represents obj entries →
  represents (addKeyValue obj k v) (entries ++ [(k, v)]).
Proof.
  intros Hrep name. rewrite values_of_snoc.
  destruct (same_text k name) eqn:Hk.
  - apply same_text_eq in Hk. subst name.
    unfold addKeyValue. specialize (Hrep k).
    destruct (obj !! k) as [[first|l]|] eqn:Hlook; rewrite lookup_insert_eq.
    + symmetry in Hrep. apply collected_text in Hrep. rewrite Hrep. reflexivity.
    + symmetry in Hrep. apply collected_list in Hrep as [-> Hlen].
      symmetry. apply collected_long. assumption.
    + destruct (values_of k entries) as [|a [|b values]]; simpl in Hrep;
        [reflexivity | discriminate | discriminate].
  - assert (k ≠ name) by (intros Heq; apply same_text_eq in Heq; congruence).
    rewrite app_nil_r, <- Hrep. unfold addKeyValue.
    destruct (obj !! k) as [[first|l]|]; apply lookup_insert_ne; assumption.
Qed.

Lemma fold_addKeyValue_represents more obj entries :
  represents obj entries →
  represents (fold_left (fun o e => addKeyValue o e.1 e.2) more obj) (entries ++ more).
Proof.
  revert obj entries; induction more as [|[k v] more IH]; intros obj entries Hrep.
  - rewrite app_nil_r. exact Hrep.
  - simpl fold_left. rewrite (cons_middle (k, v) entries more), app_assoc.
    apply IH, addKeyValue_represents, Hrep.
Qed.

Lemma fold_qs_add pieces obj :
  fold_left qs_add pieces obj =
  fold_left (fun o e => addKeyValue o e.1 e.2) (entries_of pieces) obj.
Proof.
  revert obj; induction pieces as [|piece pieces IH]; intros obj; [reflexivity|].
  simpl fold_left. rewrite IH. unfold entries_of. simpl List.filter.
  destruct piece as [|c piece]; [reflexivity|].
  simpl negb. simpl List.map. simpl fold_left. unfold qs_add, qs_entry.
  destruct (qs_pair (c :: piece)); reflexivity.
Qed.

(** Under every name the parsed object holds the values the pieces it reads
    give to that name, in the order of the text: none, one text, or a
    list. *)
Lemma parseQuerystring_lookup (text name : jsstring) :
  parseQuerystring text !! name =
  collected (values_of name (entries_of (take maxKeys (split_on 38 [] text)))).
Proof.
  destruct text as [|c text]; [reflexivity|].
  unfold parseQuerystring. rewrite fold_qs_add.
  apply (fold_addKeyValue_represents _ ∅ []).
  intros k. reflexivity.
Qed.

(** *** The decoder of names and values *)

Lemma uri_run_plain (s : jsstring) : 37 ∉ s → uri_run UPlain s = Some s.
Proof.
  induction s as [|c s IH]; intros Hs; [reflexivity|].
  apply not_elem_of_cons in Hs as [Hc Hs]. simpl.
  destruct (N.eqb_spec c 37); [congruence|]. rewrite IH by assumption. reflexivity.
Qed.

Lemma uri_run_after_plain (pre s : jsstring) (r : jsstring) :
  37 ∉ pre → uri_run UPlain (pre ++ s) = Some r →
  ∃ r', uri_run UPlain s = Some r'.
Proof.
  induction pre as [|c pre IH] in r |- *; intros Hpre; simpl; [eauto|].
  apply not_elem_of_cons in Hpre as [Hc Hpre].
  destruct (N.eqb_spec c 37); [congruence|].
  destruct (uri_run UPlain (pre ++ s)) eqn:Hrun; [|discriminate].
  intros _. eapply IH; eauto.
Qed.

Lemma hex_value_not_special (c v : N) :
  hex_value c = Some v → c ≠ 37 ∧ c ≠ 43 ∧ c ≠ 32 ∧ c ≠ 61.
Proof.
  intros H. repeat split; intros ->; vm_compute in H; discriminate.
Qed.

Lemma plus_to_space_percent (s : jsstring) : 37 ∈ plus_to_space s → 37 ∈ s.
Proof.
  unfold plus_to_space. intros H. apply list_elem_of_In, in_map_iff in H.
  destruct H as (c & Hc & Hin). apply list_elem_of_In.
  destruct (N.eqb_spec c 43); [discriminate | congruence].
Qed.

(** A percent sign that decodeURIComponent accepts has two hexadecimal
    digits after it. *)
Lemma uri_run_escape (s r : jsstring) :
  uri_run UPlain (37 :: s) = Some r →
  ∃ h l rest hv lv, s = h :: l :: rest ∧ hex_value h = Some hv ∧ hex_value l = Some lv.
Proof.
  destruct s as [|h [|l rest]]; simpl.
  - discriminate.
  - destruct (hex_value h); discriminate.
  - destruct (hex_value h) as [hv|] eqn:Hh; [|discriminate]. simpl.
    destruct (hex_value l) as [lv|] eqn:Hl; [|discriminate].
    intros _. exists h, l, rest, hv, lv. auto.
Qed.

Lemma hex_value_plus_to_space (c v : N) :
  hex_value (if c =? 43 then 32 else c) = Some v → hex_value c = Some v.
Proof.
  destruct (N.eqb_spec c 43); [vm_compute; discriminate | auto].
Qed.

(** A text that decodeURIComponent accepts once its plus signs are spaces,
    and that holds a percent sign, begins, after units that are no percent
    sign, with a percent sign and two hexadecimal digits. *)
Lemma first_escape (raw r : jsstring) :
  uri_run UPlain (plus_to_space raw) = Some r → 37 ∈ raw →
  ∃ pre h l rest hv lv,
    raw = pre ++ 37 :: h :: l :: rest ∧ (37 ∉ pre) ∧
    hex_value h = Some hv ∧ hex_value l = Some lv.
Proof.
  intros Hrun Hin.
  apply list_elem_of_split_l in Hin as (pre & rest & -> & Hpre).
  unfold plus_to_space in Hrun. rewrite List.map_app in Hrun.
  apply uri_run_after_plain in Hrun as [r' Hrun].
  2:{ intros H. apply Hpre. apply plus_to_space_percent. exact H. }
  change (List.map (fun c => if c =? 43 then 32 else c) (37 :: rest))
    with (37 :: plus_to_space rest) in Hrun.
  apply uri_run_escape in Hrun as (h & l & rest' & hv & lv & Hrest & Hh & Hl).
  destruct rest as [|h0 [|l0 rest0]]; try discriminate.
  unfold plus_to_space in Hrest. simpl in Hrest. injection Hrest as <- <- _.
  apply hex_value_plus_to_space in Hh, Hl.
  exists pre, h0, l0, rest0, hv, lv. auto.
Qed.

(** *** What the parser notices *)

Lemma check_value_keeps (st : scan) (c : N) :
  seen_equals (check_value st c) = seen_equals st ∧
  keyEncoded (check_value st c) = keyEncoded st ∧
  (valEncoded st = true → valEncoded (check_value st c) = true).
Proof.
  unfold check_value. destruct (valEncoded st) eqn:Hv; [auto|].
  destruct (c =? 37); [simpl; auto|].
  destruct (encodeCheck st); [rewrite Hv; auto|].
  destruct (hex_value c); simpl; repeat split; discriminate.
Qed.

Lemma scan_unit_keeps (st : scan) (c : N) :
  (keyEncoded st = true → keyEncoded (scan_unit st c) = true) ∧
  (valEncoded st = true → valEncoded (scan_unit st c) = true).
Proof.
  destruct (check_value_keeps st c) as (_ & Hk & Hv).
  unfold scan_unit. destruct (seen_equals st).
  - destruct (c =? 43); [auto|]. rewrite Hk. auto.
  - destruct (c =? 61); [simpl; auto|].
    destruct (keyEncoded st) eqn:Hkey.
    + destruct (c =? 43); [auto|]. rewrite Hk. auto.
    + split; [discriminate|].
      destruct (c =? 37); [simpl; auto|].
      destruct (encodeCheck st), (hex_value c); simpl; auto.
Qed.

Lemma scan_keeps (s : jsstring) (st : scan) :
  (keyEncoded st = true → keyEncoded (fold_left scan_unit s st) = true) ∧
  (valEncoded st = true → valEncoded (fold_left scan_unit s st) = true).
Proof.
  revert st; induction s as [|c s IH]; intros st; [auto|].
  simpl. destruct (scan_unit_keeps st c) as [Hk Hv].
  destruct (IH (scan_unit st c)) as [Hk' Hv']. auto.
Qed.

(** Before the equals sign and before any escape, a unit that is neither a
    percent sign nor an equals sign leaves the parser where it started. *)
Lemma scan_name_plain (pre : jsstring) :
  37 ∉ pre → 61 ∉ pre → fold_left scan_unit pre scan_start = scan_start.
Proof.
  induction pre as [|c pre IH]; intros H37 H61; [reflexivity|].
  apply not_elem_of_cons in H37 as [Hc37 H37].
  apply not_elem_of_cons in H61 as [Hc61 H61].
  simpl fold_left.
  assert (Hstep : scan_unit scan_start c = scan_start).
  { unfold scan_unit. simpl.
    destruct (N.eqb_spec c 61); [congruence|].
    destruct (N.eqb_spec c 37); [congruence|]. reflexivity. }
  rewrite Hstep. apply IH; assumption.
Qed.

(** An escape that decodeURIComponent accepts in the name is noticed. *)
Lemma scan_name_escape (name rest r : jsstring) :
  61 ∉ name →
  uri_run UPlain (plus_to_space name) = Some r → 37 ∈ name →
  keyEncoded (fold_left scan_unit (name ++ rest) scan_start) = true.
Proof.
  intros H61 Hrun Hin.
  destruct (first_escape name r Hrun Hin)
    as (pre & h & l & tail & hv & lv & -> & Hpre & Hh & Hl).
  assert (Hpre61 : 61 ∉ pre).
  { intros H. apply H61. apply elem_of_app. left. exact H. }
  destruct (hex_value_not_special _ _ Hh) as (Hh37 & _ & _ & Hh61).
  destruct (hex_value_not_special _ _ Hl) as (Hl37 & _ & _ & Hl61).
  rewrite <- app_assoc, fold_left_app, scan_name_plain by assumption.
  simpl app. simpl fold_left. apply scan_keeps.
  unfold scan_unit at 3. simpl.
  unfold scan_unit at 2. simpl.
  destruct (N.eqb_spec h 61); [congruence|].
  destruct (N.eqb_spec h 37); [congruence|]. rewrite Hh. simpl.
  unfold scan_unit. simpl.
  destruct (N.eqb_spec l 61); [congruence|].
  destruct (N.eqb_spec l 37); [congruence|]. rewrite Hl. reflexivity.
Qed.

Lemma scan_name_unseen (name : jsstring) (st : scan) :
  61 ∉ name → seen_equals st = false →
  seen_equals (fold_left scan_unit name st) = false.
Proof.
  revert st; induction name as [|c name IH]; intros st H61 Hst; [assumption|].
  apply not_elem_of_cons in H61 as [Hc H61]. simpl. apply IH; [assumption|].
  destruct (check_value_keeps st c) as (Hs & _ & _).
  unfold scan_unit. rewrite Hst.
  destruct (N.eqb_spec c 61); [congruence|].
  destruct (keyEncoded st).
  - destruct (c =? 43); [assumption | congruence].
  - destruct (c =? 37); [reflexivity|].
    destruct (encodeCheck st), (hex_value c); reflexivity.
Qed.

(** After the equals sign and before any escape of the value, a unit that
    is no percent sign leaves the parser as it is. *)
Lemma scan_value_plain (pre : jsstring) (st : scan) :
  37 ∉ pre → seen_equals st = true → valEncoded st = false → encodeCheck st = 0%nat →
  fold_left scan_unit pre st = st.
Proof.
  induction pre as [|c pre IH]; intros H37 Hseen Hval Hcheck; [reflexivity|].
  apply not_elem_of_cons in H37 as [Hc H37]. simpl fold_left.
  assert (Hstep : scan_unit st c = st).
  { unfold scan_unit, check_value. rewrite Hseen, Hval, Hcheck.
    destruct (c =? 43); [reflexivity|].
    destruct (N.eqb_spec c 37); [congruence | reflexivity]. }
  rewrite Hstep. apply IH; assumption.
Qed.

(** An escape that decodeURIComponent accepts in the value is noticed. *)
Lemma scan_value_escape (name value r : jsstring) :
  61 ∉ name →
  uri_run UPlain (plus_to_space value) = Some r → 37 ∈ value →
  valEncoded (fold_left scan_unit (name ++ 61 :: value) scan_start) = true.
Proof.
  intros H61 Hrun Hin.
  destruct (first_escape value r Hrun Hin)
    as (pre & h & l & tail & hv & lv & -> & Hpre & Hh & Hl).
  destruct (hex_value_not_special _ _ Hh) as (Hh37 & Hh43 & _).
  destruct (hex_value_not_special _ _ Hl) as (Hl37 & Hl43 & _).
  rewrite fold_left_app. simpl fold_left.
  pose proof (scan_name_unseen name scan_start H61 eq_refl) as Hunseen.
  set (st1 := fold_left scan_unit name scan_start) in *.
  assert (Hst2 : scan_unit st1 61 =
                 {| seen_equals := true; keyEncoded := keyEncoded st1;
                    valEncoded := valEncoded st1; encodeCheck := 0 |}).
  { unfold scan_unit. rewrite Hunseen. reflexivity. }
  rewrite Hst2. destruct (valEncoded st1) eqn:Hval1.
  - apply scan_keeps. reflexivity.
  - rewrite fold_left_app.
    rewrite (scan_value_plain pre
               {| seen_equals := true; keyEncoded := keyEncoded st1;
                  valEncoded := false; encodeCheck := 0 |}
               Hpre eq_refl eq_refl eq_refl).
    simpl fold_left. apply scan_keeps.
    unfold scan_unit at 3, check_value. simpl.
    unfold scan_unit at 2, check_value. simpl.
    destruct (N.eqb_spec h 43); [congruence|].
    destruct (N.eqb_spec h 37); [congruence|]. rewrite Hh. simpl.
    unfold scan_unit, check_value. simpl.
    destruct (N.eqb_spec l 43); [congruence|].
    destruct (N.eqb_spec l 37); [congruence|]. rewrite Hl. reflexivity.
Qed.

(** Where decodeURIComponent decodes the text of a name or of a value,
    plus signs read as spaces, the parser gives the same text, provided it
    has noticed the escapes of a text that holds some. *)
Lemma qs_decode_reads (encoded : bool) (raw : jsstring) :
  (∀ r, uri_run UPlain (plus_to_space raw) = Some r → 37 ∈ raw → encoded = true) →
  reads_as raw (qs_decode encoded raw).
Proof.
  intros Hnoticed r.
  change (List.map (fun c => if c =? 43 then 32 else c) raw) with (plus_to_space raw).
  unfold decodeURIComponent, qs_decode, qsUnescape, decodeURIComponent.
  destruct (uri_run UPlain (plus_to_space raw)) as [r'|] eqn:Hrun; [|discriminate].
  intros [= <-].
  destruct (plus_to_space raw) as [|c text] eqn:Htext.
  - simpl in Hrun. congruence.
  - destruct (decide (37 ∈ raw)) as [Hin|Hout].
    + rewrite (Hnoticed r' eq_refl Hin). reflexivity.
    + assert (Hplain : uri_run UPlain (c :: text) = Some (c :: text)).
      { apply uri_run_plain. rewrite <- Htext.
        intros H. apply Hout, plus_to_space_percent, H. }
      destruct encoded; congruence.
Qed.

(** *** The pieces of a form body *)

Lemma indexOf_absent (s : jsstring) (c : N) : c ∉ s → indexOf s c = (-1)%Z.
Proof.
  induction s as [|x s IH]; intros Hs; [reflexivity|].
  apply not_elem_of_cons in Hs as [Hx Hs]. simpl.
  destruct (N.eqb_spec x c); [congruence|]. rewrite IH by assumption. reflexivity.
Qed.

Lemma indexOf_first (pre rest : jsstring) (c : N) :
  c ∉ pre → indexOf (pre ++ c :: rest) c = Z.of_nat (length pre).
Proof.
  induction pre as [|x pre IH]; intros Hp.
  - simpl. rewrite N.eqb_refl. reflexivity.
  - apply not_elem_of_cons in Hp as [Hx Hp]. simpl indexOf.
    destruct (N.eqb_spec x c); [congruence|]. rewrite IH by assumption.
    destruct (Z.ltb_spec (Z.of_nat (length pre)) 0); [lia|]. simpl length. lia.
Qed.

Lemma split_on_piece (sep : N) (acc piece s : jsstring) :
  sep ∉ piece → split_on sep acc (piece ++ s) = split_on sep (acc ++ piece) s.
Proof.
  revert acc; induction piece as [|c piece IH]; intros acc Hp.
  - rewrite app_nil_r. reflexivity.
  - apply not_elem_of_cons in Hp as [Hc Hp]. simpl.
    destruct (N.eqb_spec c sep); [congruence|].
    rewrite IH by assumption. rewrite <- app_assoc. reflexivity.
Qed.

(** A text made of pieces joined by the separator is cut back into them. *)
Lemma split_on_join (sep : N) (pieces : list jsstring) :
  Forall (fun piece => sep ∉ piece) pieces → pieces ≠ [] →
  split_on sep [] (join [sep] pieces) = pieces.
Proof.
  intros Hall Hne. induction Hall as [|piece pieces Hp Hall IH]; [done|].
  destruct pieces as [|next pieces].
  - simpl join. rewrite <- (app_nil_r piece) at 1.
    rewrite split_on_piece by assumption. reflexivity.
  - change (join [sep] (piece :: next :: pieces))
      with (piece ++ sep :: join [sep] (next :: pieces)).
    rewrite split_on_piece by assumption.
    change (split_on sep ([] ++ piece) (sep :: join [sep] (next :: pieces)))
      with (if sep =? sep then ([] ++ piece) :: split_on sep [] (join [sep] (next :: pieces))
            else split_on sep (([] ++ piece) ++ [sep]) (join [sep] (next :: pieces))).
    rewrite N.eqb_refl, IH by discriminate. reflexivity.
Qed.

(** A piece is cut at its first equals sign, and is all name without one. *)
Lemma qs_pair_piece (p : jsstring * option jsstring) :
  61 ∉ p.1 → qs_pair (piece_text p) = (p.1, default [] p.2).
Proof.
  destruct p as [name [value|]]; simpl; intros Hname; unfold qs_pair, piece_text; simpl.
  - rewrite indexOf_first by assumption.
    destruct (Z.ltb_spec (Z.of_nat (length name)) 0); [lia|].
    rewrite Nat2Z.id, take_app_length.
    replace (name ++ 61 :: value) with ((name ++ [61]) ++ value)
      by (rewrite <- app_assoc; reflexivity).
    rewrite drop_app_length'; [reflexivity|].
    rewrite length_app. simpl. lia.
  - rewrite indexOf_absent by assumption. reflexivity.
Qed.

(** The entry the parser makes of a piece is what the piece reads as. *)
Lemma qs_entry_piece (p : jsstring * option jsstring) :
  61 ∉ p.1 → entry_of p (qs_entry (piece_text p)).
Proof.
  intros Hname. unfold entry_of, qs_entry. rewrite qs_pair_piece by assumption.
  simpl fst. simpl snd. split.
  - apply qs_decode_reads. intros r Hrun Hin. unfold scan_piece.
    destruct p as [name [value|]]; unfold piece_text; simpl in *.
    + apply (scan_name_escape name (61 :: value) r); assumption.
    + rewrite <- (app_nil_r name) at 1.
      apply (scan_name_escape name [] r); assumption.
  - apply qs_decode_reads. intros r Hrun Hin. unfold scan_piece.
    destruct p as [name [value|]]; unfold piece_text; simpl in *.
    + apply (scan_value_escape name value r); assumption.
    + apply elem_of_nil in Hin. contradiction.
Qed.

Lemma entries_of_pieces (pieces : list (jsstring * option jsstring)) :
  Forall well_cut pieces →
  Forall2 entry_of (List.filter written pieces)
          (entries_of (List.map piece_text pieces)).
Proof.
  unfold entries_of. induction 1 as [|p pieces [_ Hp] _ IH]; [constructor|].
  simpl. unfold written at 1.
  destruct (piece_text p) as [|c text] eqn:Htext; simpl; [exact IH|].
  constructor; [|exact IH]. rewrite <- Htext. apply qs_entry_piece. assumption.
Qed.

(** The object parsed from a form text: it holds, under every name, the
    values of the written pieces among the first thousand, each read as
    percent-encoding where it is well-formed. *)
Lemma parseQuerystring_form (pieces : list (jsstring * option jsstring)) :
  Forall well_cut pieces →
  ∃ entries,
    Forall2 entry_of (List.filter written (take 1000 pieces)) entries ∧
    ∀ name, parseQuerystring (form_text pieces) !! name
            = collected (values_of name entries).
Proof.
  intros Hall.
  exists (entries_of (List.map piece_text (take 1000 pieces))). split.
  - apply entries_of_pieces. apply Forall_take. assumption.
  - intros name. rewrite parseQuerystring_lookup.
    destruct pieces as [|p pieces]; [reflexivity|].
    unfold form_text. rewrite split_on_join.
    + unfold maxKeys. rewrite <- firstn_map. reflexivity.
    + apply Forall_map. eapply Forall_impl; [exact Hall|].
      intros q [Hq _]. exact Hq.
    + discriminate.
Qed.

Lemma join_cons (sep x : jsstring) (l : list jsstring) :
  l ≠ [] → join sep (x :: l) = x ++ sep ++ join sep l.
Proof. destruct l; [done | reflexivity]. Qed.

Lemma split_on_not_nil (sep : N) (acc s : jsstring) : split_on sep acc s ≠ [].
Proof.
  revert acc; induction s as [|c s IH]; intros acc; simpl; [discriminate|].
  destruct (c =? sep); [discriminate | apply IH].
Qed.

(** Cutting a text at the separator loses nothing, and no piece holds the
    separator. *)
Lemma join_split_on (sep : N) (acc s : jsstring) :
  sep ∉ acc →
  join [sep] (split_on sep acc s) = acc ++ s ∧
  Forall (fun piece => sep ∉ piece) (split_on sep acc s).
Proof.
  revert acc; induction s as [|c s IH]; intros acc Hacc; simpl.
  - split; [rewrite app_nil_r; reflexivity | repeat constructor; assumption].
  - destruct (N.eqb_spec c sep) as [->|Hc].
    + destruct (IH [] (not_elem_of_nil sep)) as [Hjoin Hall]. split.
      * rewrite join_cons by apply split_on_not_nil. rewrite Hjoin. reflexivity.
      * constructor; assumption.
    + destruct (IH (acc ++ [c])) as [Hjoin Hall].
      { rewrite not_elem_of_app, not_elem_of_cons. split; [assumption|].
        split; [congruence | apply not_elem_of_nil]. }
      rewrite Hjoin, <- app_assoc. split; [reflexivity | assumption].
Qed.

(** Every text is a form text: it has pieces, and every piece a name. *)
Lemma form_text_reading (text : jsstring) :
  ∃ pieces, text = form_text pieces ∧ Forall well_cut pieces.
Proof.
  destruct (join_split_on 38 [] text (not_elem_of_nil 38)) as [Hjoin Hall].
  simpl in Hjoin. rewrite <- Hjoin. clear Hjoin. unfold form_text.
  assert (Hcut : ∃ pieces, List.map piece_text pieces = split_on 38 [] text ∧
                           Forall well_cut pieces).
  { induction Hall as [|piece rest Hpiece _ (pieces & Hpieces & Hcut)].
    - exists []. split; [reflexivity | constructor].
    - assert (Hp : ∃ p, piece_text p = piece ∧ 61 ∉ p.1).
      { destruct (decide (61 ∈ piece)) as [Hin|Hout].
        - apply list_elem_of_split_l in Hin as (name & value & -> & Hname).
          exists (name, Some value). split; [reflexivity | assumption].
        - exists (piece, None). split; [reflexivity | assumption]. }
      destruct Hp as (p & <- & Hname). exists (p :: pieces). split.
      + simpl. rewrite Hpieces. reflexivity.
      + constructor; [split; assumption | assumption]. }
  destruct Hcut as (pieces & <- & Hcut). exists pieces. auto.
Qed.

(** C6, as the code has it. For every request whose content type contains
    "application/x-www-form-urlencoded" and not "application/json", and for
    every stream that ends after data alone, addBody resolves, whatever the
    bytes: the payload cannot make it fail.  The decoded body is a mapping
    read off the UTF-8 text of the bytes, taken in arrival order.  The text
    is a sequence of pieces separated by ampersands, each a name alone or a
    name, an equals sign and a value.  Only the first thousand pieces count,
    and of these the empty ones are skipped.  Every other piece gives an
    entry: its name and its value (the empty text when there is none), each
    with plus signs read as spaces and percent-decoded as decodeURIComponent
    does wherever the text is well-formed percent-encoding.  Under every name
    the mapping holds what the entries of that name give, in order: nothing,
    the one value, or the list of the values. *)
Theorem addBody_form_body
    (req : IncomingMessage) (pre post : list stream_event) :
  ¬ contains_ci (default [] (content_type (headers req))) (js "application/json") →
  contains_ci (default [] (content_type (headers req)))
              (js "application/x-www-form-urlencoded") →
  Forall is_data pre →
  ∃ q, addBody req (pre ++ End :: post) = Fulfilled (Object_assign req (Query q)) ∧
       (∃ pieces,
          Buffer_toString (List.concat (data_chunks pre)) utf8 = form_text pieces ∧
          Forall well_cut pieces) ∧
       (∀ pieces,
          Buffer_toString (List.concat (data_chunks pre)) utf8 = form_text pieces →
          Forall well_cut pieces →
          ∃ entries,
            Forall2 entry_of (List.filter written (take 1000 pieces)) entries ∧
            ∀ name, q !! name = collected (values_of name entries)).
Proof.
  intros Hjson Hform Hpre.
  exists (parseQuerystring (Buffer_toString (List.concat (data_chunks pre)) utf8)).
  split; [|split].
  - rewrite addBody_decoded.
    rewrite (decoded_by_fulfilled _ _ _ (Buffer_concat (data_chunks pre))).
    + rewrite decode_body_form by assumption. reflexivity.
    + apply read_stream_fulfilled. exists pre, post. auto.
  - apply form_text_reading.
  - intros pieces -> Hcut. apply parseQuerystring_form. assumption.
Qed.

(** A body sent in two chunks: the name [a] comes twice, the value of [b]
    holds an escape and a plus sign, [c] has no value, and one piece is
    empty. *)
Lemma addBody_form_body_witness :
  ∃ q, addBody (request_of_type (js "application/x-www-form-urlencoded"))
               [Data (bytes "a=1&b=x%20y+z&&a="); Data (bytes "2&c"); End]
       = Fulfilled (Object_assign (request_of_type (js "application/x-www-form-urlencoded"))
                                  (Query q)) ∧
       q !! js "a" = Some (QList [js "1"; js "2"]) ∧
       q !! js "b" = Some (QText (js "x y z")) ∧
       q !! js "c" = Some (QText []) ∧
       q !! js "d" = None.
Proof.
  destruct (addBody_form_body
              (request_of_type (js "application/x-www-form-urlencoded"))
              [Data (bytes "a=1&b=x%20y+z&&a="); Data (bytes "2&c")] [])
    as (q & Hq & _ & Hpieces).
  - intros H. apply regex_test_contains_ci in H. vm_compute in H. discriminate.
  - exists [], (js "application/x-www-form-urlencoded"), []. split; reflexivity.
  - repeat constructor.
  - exists q. split; [exact Hq|].
    destruct (Hpieces [(js "a", Some (js "1")); (js "b", Some (js "x%20y+z"));
                       ([], None); (js "a", Some (js "2")); (js "c", None)])
      as (entries & Hentries & Hlookup).
    + reflexivity.
    + repeat constructor; absent_from_text.
    + vm_compute List.filter in Hentries.
      inversion Hentries as [|pa ea ? es1 [Ha1 Ha2] H1]; subst.
      inversion H1 as [|pb eb ? es2 [Hb1 Hb2] H2]; subst.
      inversion H2 as [|pa' ea' ? es3 [Ha1' Ha2'] H3]; subst.
      inversion H3 as [|pc ec ? es4 [Hc1 Hc2] H4]; subst.
      inversion H4; subst.
      destruct ea as [ea1 ea2], eb as [eb1 eb2], ea' as [ea1' ea2'], ec as [ec1 ec2].
      simpl in *.
      rewrite (Ha1 _ eq_refl), (Ha2 _ eq_refl), (Hb1 _ eq_refl), (Hb2 _ eq_refl),
        (Ha1' _ eq_refl), (Ha2' _ eq_refl), (Hc1 _ eq_refl), (Hc2 _ eq_refl) in Hlookup.
      rewrite !Hlookup. repeat split.
Defined.

(** C6 as it is worded fails on a body of more than a thousand pairs: the
    pair [b=2] comes after a thousand pairs [a=1], the body is ordinary
    [key=value] syntax throughout, and the mapping addBody resolves with has
    nothing under [b]. *)
Lemma addBody_form_body_thousand_pairs :
  Buffer_toString many_pairs utf8
  = form_text (replicate 1000 (js "a", Some (js "1")) ++ [(js "b", Some (js "2"))]) ∧
  ∃ q, addBody (request_of_type (js "application/x-www-form-urlencoded"))
               [Data many_pairs; End]
       = Fulfilled (Object_assign (request_of_type (js "application/x-www-form-urlencoded"))
                                  (Query q)) ∧
       q !! js "b" = None.
Proof.
  split; [vm_compute; reflexivity|].
  exists (parseQuerystring (Buffer_toString many_pairs utf8)). split.
  - reflexivity.
  - rewrite parseQuerystring_lookup. vm_compute. reflexivity.
Qed.

(** The form body [a=1&b=x%20y&a=%zz&c] is the object with a = ["1", "%zz"],
    b = "x y" and c = "": the repeated name is a list, the escape is
    decoded, the malformed escape is kept and the name without a value gets
    the empty text. *)
Example parseQuerystring_sample :
  parseQuerystring (js "a=1&b=x%20y&a=%zz&c") =
  {[ js "a" := QList [js "1"; js "%zz"]; js "b" := QText (js "x y"); js "c" := QText [] ]}.
Proof.
  apply map_eq. intros name. rewrite parseQuerystring_lookup.
  destruct (decide (name = js "a")) as [->|Ha]; [reflexivity|].
  destruct (decide (name = js "b")) as [->|Hb]; [reflexivity|].
  destruct (decide (name = js "c")) as [->|Hc]; [reflexivity|].
  rewrite !lookup_insert_ne, lookup_singleton_ne by congruence.
  vm_compute entries_of. unfold values_of. cbn -[same_text].
  assert (Hno : ∀ k, k ≠ name → same_text k name = false).
  { intros k Hk. apply not_true_iff_false. rewrite same_text_eq. assumption. }
  change (js "a") with [97] in Ha. change (js "b") with [98] in Hb.
  change (js "c") with [99] in Hc.
  rewrite !Hno by congruence. reflexivity.
Qed.

(** The escape in [%+41] is noticed although a plus sign parts it, so the
    value is decoded leniently: the unit 233 after it is stored in one byte,
    which is no UTF-8 and reads as the replacement character. *)
Example parseQuerystring_lenient :
  parseQuerystring ([97; 61; 37; 43; 52; 49; 233]) !! js "a"
  = Some (QText [37; 32; 52; 49; 65533]).
Proof. rewrite parseQuerystring_lookup. reflexivity. Qed.

(** ** Cutting the cookie header *)

Lemma split_go_piece (acc piece s : jsstring) :
  59 ∉ piece → split_go false acc (piece ++ s) = split_go false (acc ++ piece) s.
Proof.
  revert acc; induction piece as [|c piece IH]; intros acc Hp.
  - rewrite app_nil_r. reflexivity.
  - apply not_elem_of_cons in Hp as [Hc Hp]. simpl.
    destruct (N.eqb_spec c 59); [congruence|].
    rewrite IH by assumption. rewrite <- app_assoc. reflexivity.
Qed.

Lemma split_go_whitespace (ws s : jsstring) :
  Forall (fun c => is_whitespace c = true) ws →
  split_go true [] (ws ++ s) = split_go true [] s.
Proof.
  induction 1 as [|c ws Hc Hws IH]; [reflexivity|].
  simpl. rewrite Hc. exact IH.
Qed.

Lemma split_go_resume (s : jsstring) :
  match s with [] => True | c :: _ => is_whitespace c = false end →
  split_go true [] s = split_go false [] s.
Proof. destruct s as [|c s]; [reflexivity|]. simpl. intros ->. reflexivity. Qed.

(** A text without a semicolon is one piece. *)
Lemma split_semicolon_single (piece : jsstring) :
  59 ∉ piece → split_semicolon piece = [piece].
Proof.
  intros Hp. unfold split_semicolon.
  rewrite <- (app_nil_r piece) at 1. rewrite split_go_piece by assumption. reflexivity.
Qed.

(** The header is cut at every semicolon, and the white space that follows
    the semicolon belongs to neither piece. *)
Lemma split_semicolon_cons (piece ws rest : jsstring) :
  59 ∉ piece →
  Forall (fun c => is_whitespace c = true) ws →
  match rest with [] => True | c :: _ => is_whitespace c = false end →
  split_semicolon (piece ++ 59 :: ws ++ rest) = piece :: split_semicolon rest.
Proof.
  intros Hp Hws Hrest. unfold split_semicolon.
  rewrite split_go_piece by assumption. simpl.
  rewrite split_go_whitespace, split_go_resume by assumption. reflexivity.
Qed.

(** A piece with an equals sign is cut at the first one. *)
Lemma cookie_cut (name value : jsstring) :
  61 ∉ name →
  cookie_name (name ++ 61 :: value) = name ∧ cookie_value (name ++ 61 :: value) = value.
Proof.
  intros Hn. unfold cookie_name, cookie_value, slice, slice_offset.
  rewrite indexOf_first by assumption. rewrite length_app. simpl length.
  split.
  - destruct (Z.ltb_spec (Z.of_nat (length name)) 0); [lia|]. simpl.
    replace (Z.to_nat _) with (length name) by lia.
    replace (Z.to_nat _) with 0%nat by lia.
    rewrite drop_0. apply take_app_length.
  - destruct (Z.ltb_spec (Z.of_nat (length name) + 1) 0); [lia|].
    replace (Z.to_nat (Z.min _ _)) with (length name + 1)%nat by lia.
    replace (Z.to_nat (Z.max _ _)) with (length value) by lia.
    rewrite drop_app_add. simpl. apply take_ge. lia.
Qed.

(** A piece without an equals sign: the name is the piece less its last
    unit, the value is the whole piece. *)
Lemma cookie_uncut (piece : jsstring) :
  61 ∉ piece →
  cookie_name piece = removelast piece ∧ cookie_value piece = piece.
Proof.
  intros Hp. unfold cookie_name, cookie_value, slice, slice_offset.
  rewrite indexOf_absent by assumption. simpl. split.
  - rewrite removelast_firstn_len.
    destruct (Z.ltb_spec 0 0); [lia|].
    replace (Z.to_nat (Z.min 0 _)) with 0%nat by lia. rewrite drop_0.
    f_equal. lia.
  - replace (Z.to_nat (Z.min 0 _)) with 0%nat by lia. rewrite drop_0.
    apply take_ge. lia.
Qed.

(** ** addCookies *)

Lemma decodeURIComponent_throws (s : jsstring) (e : js_error) :
  decodeURIComponent s = Throw e → e = URIError.
Proof. unfold decodeURIComponent. destruct (uri_run UPlain s); congruence. Qed.

Lemma add_cookie_decoded (cookies : gmap jsstring jsstring) (piece : jsstring) :
  add_cookie cookies piece =
  match decoded (cookie_value piece) with
  | Some v => Normal (object_set cookies (cookie_name piece) v)
  | None => Throw URIError
  end.
Proof.
  unfold add_cookie, decoded. fold (cookie_value piece). fold (cookie_name piece).
  destruct (decodeURIComponent (cookie_value piece)) as [v|e] eqn:Hd; simpl.
  - reflexivity.
  - apply decodeURIComponent_throws in Hd. congruence.
Qed.

Lemma object_set_lookup (cookies : gmap jsstring jsstring) (name v k : jsstring) :
  k ≠ js "__proto__" →
  object_set cookies name v !! k = if same_text name k then Some v else cookies !! k.
Proof.
  intros Hk. unfold object_set.
  destruct (same_text name (js "__proto__")) eqn:Hproto.
  - apply same_text_eq in Hproto. subst name.
    destruct (same_text (js "__proto__") k) eqn:Hsame; [|reflexivity].
    apply same_text_eq in Hsame. congruence.
  - destruct (same_text name k) eqn:Hsame.
    + apply same_text_eq in Hsame. subst k. apply lookup_insert_eq.
    + apply lookup_insert_ne. intros ->. rewrite same_text_refl in Hsame. discriminate.
Qed.

(** After the loop, a name other than [__proto__] holds the decoded value
    of the last piece of that name, or what it held before the loop. *)
Lemma forEach_add_cookie_lookup (pieces : list jsstring)
    (init m : gmap jsstring jsstring) (name : jsstring) :
  forEach add_cookie pieces init = Normal m →
  name ≠ js "__proto__" →
  m !! name = match last_named name pieces with
              | Some piece => decoded (cookie_value piece)
              | None => init !! name
              end.
Proof.
  intros Hrun Hname. revert init Hrun.
  induction pieces as [|piece pieces IH]; intros init Hrun.
  - injection Hrun as <-. reflexivity.
  - simpl in Hrun. rewrite add_cookie_decoded in Hrun.
    destruct (decoded (cookie_value piece)) as [v|] eqn:Hv; [|discriminate].
    simpl in Hrun. rewrite (IH _ Hrun). simpl last_named.
    destruct (last_named name pieces); [reflexivity|].
    rewrite object_set_lookup by assumption.
    destruct (same_text (cookie_name piece) name); [symmetry; assumption | reflexivity].
Qed.

Lemma forEach_add_cookie_returns (pieces : list jsstring) (init : gmap jsstring jsstring) :
  Forall (fun piece => is_Some (decoded (cookie_value piece))) pieces →
  ∃ m, forEach add_cookie pieces init = Normal m.
Proof.
  intros Hall. revert init. induction Hall as [|piece pieces [v Hv] _ IH]; intros init.
  - exists init. reflexivity.
  - simpl. rewrite add_cookie_decoded, Hv. simpl. apply IH.
Qed.

Lemma forEach_add_cookie_throws (pieces : list jsstring)
    (init : gmap jsstring jsstring) (e : js_error) :
  forEach add_cookie pieces init = Throw e →
  e = URIError ∧ Exists (fun piece => decoded (cookie_value piece) = None) pieces.
Proof.
  revert init. induction pieces as [|piece pieces IH]; intros init; [discriminate|].
  simpl. rewrite add_cookie_decoded.
  destruct (decoded (cookie_value piece)) as [v|] eqn:Hv; simpl.
  - intros Hrun. destruct (IH _ Hrun) as [-> Hex]. split; [reflexivity|].
    apply Exists_cons_tl. assumption.
  - intros [= <-]. split; [reflexivity|]. apply Exists_cons_hd. assumption.
Qed.

Lemma addCookies_pieces (req : IncomingMessage) :
  addCookies req =
  match cookie (headers req) with
  | Some h => cookies ← forEach add_cookie (cookie_pieces h) ∅;
              mret (Object_assign req cookies)
  | None => Normal (Object_assign req ∅)
  end.
Proof.
  unfold addCookies, cookie_pieces.
  destruct (cookie (headers req)) as [h|]; [|reflexivity].
  destruct (truthy h); reflexivity.
Qed.

(** What addCookies does for every name other than [__proto__]: the mapping
    holds, under each name, the decoded value of the last piece of that
    name, and nothing under a name no piece has. *)
Lemma addCookies_lookup (req : IncomingMessage) (h : header_value)
    (r : extended (gmap jsstring jsstring)) (name : jsstring) :
  cookie (headers req) = Some h →
  addCookies req = Normal r →
  name ≠ js "__proto__" →
  request r = req ∧
  field r !! name = match last_named name (cookie_pieces h) with
                    | Some piece => decoded (cookie_value piece)
                    | None => None
                    end.
Proof.
  intros Hh Hrun Hname. rewrite addCookies_pieces, Hh in Hrun.
  destruct (forEach add_cookie (cookie_pieces h) ∅) as [m|e] eqn:Hloop; [|discriminate].
  injection Hrun as <-. split; [reflexivity|]. simpl field.
  rewrite (forEach_add_cookie_lookup _ _ _ name Hloop Hname).
  destruct (last_named name (cookie_pieces h)); [reflexivity | apply lookup_empty].
Qed.

(** An array of header instances is read as the instances joined by a
    semicolon. *)
Lemma cookie_pieces_joined (instances : list jsstring) :
  cookie_pieces (HArray instances) = split_semicolon (join (js ";") instances).
Proof. reflexivity. Qed.

Lemma last_named_later (name piece : jsstring) (before after : list jsstring) :
  cookie_name piece = name →
  Forall (fun later => cookie_name later ≠ name) after →
  last_named name (before ++ piece :: after) = Some piece.
Proof.
  intros Hp Hafter. induction before as [|b before IH]; simpl.
  - assert (Hnone : last_named name after = None).
    { induction Hafter as [|later after Hl _ IH]; [reflexivity|].
      simpl. rewrite IH. destruct (same_text (cookie_name later) name) eqn:Hs; [|reflexivity].
      apply same_text_eq in Hs. contradiction. }
    rewrite Hnone, Hp, same_text_refl. reflexivity.
  - rewrite IH. reflexivity.
Qed.

(** The header [a=1; b=2] yields a = "1" and b = "2". *)
Example addCookies_two :
  addCookies (request_with_cookie (HString (js "a=1; b=2")))
  = Normal (Object_assign (request_with_cookie (HString (js "a=1; b=2")))
                          {[ js "a" := js "1"; js "b" := js "2" ]}).
Proof. reflexivity. Qed.

(** The header [a=hello%20world] yields a = "hello world". *)
Example addCookies_escaped :
  addCookies (request_with_cookie (HString (js "a=hello%20world")))
  = Normal (Object_assign (request_with_cookie (HString (js "a=hello%20world")))
                          {[ js "a" := js "hello world" ]}).
Proof. reflexivity. Qed.

(** Of two cookies of one name the later one stays. *)
Example addCookies_repeated :
  addCookies (request_with_cookie (HArray [js "a=1"; js "b=2;  a=3"]))
  = Normal (Object_assign (request_with_cookie (HArray [js "a=1"; js "b=2;  a=3"]))
                          {[ js "a" := js "3"; js "b" := js "2" ]}).
Proof. reflexivity. Qed.

(** C8, at the input where the code departs from it. The header
    [__proto__=1; b=2] is cut into the two pieces [__proto__=1] and [b=2];
    the first has the name [__proto__] and the value "1", and yet the
    mapping addCookies returns holds b = "2" only. *)
Theorem addCookies_drops_proto :
  cookie_pieces (HString (js "__proto__=1; b=2")) = [js "__proto__=1"; js "b=2"] ∧
  cookie_name (js "__proto__=1") = js "__proto__" ∧
  decoded (cookie_value (js "__proto__=1")) = Some (js "1") ∧
  addCookies (request_with_cookie (HString (js "__proto__=1; b=2")))
  = Normal (Object_assign (request_with_cookie (HString (js "__proto__=1; b=2")))
                          {[ js "b" := js "2" ]}).
Proof. repeat split; reflexivity. Qed.

(** C10, as the code has it. For every piece of the cookie header that
    holds no equals sign and whose percent-decoding succeeds, the callback
    stores, under a key other than [__proto__], the entry whose key is the
    piece less its last unit and whose value is the decoding of the whole
    piece; and the mapping addCookies returns holds that entry whenever no
    later piece has the same name. *)
Theorem addCookies_piece_without_equals (piece v : jsstring) :
  61 ∉ piece →
  decodeURIComponent piece = Normal v →
  removelast piece ≠ js "__proto__" →
  (∀ cookies, add_cookie cookies piece = Normal (<[removelast piece := v]> cookies)) ∧
  (∀ req h before after r,
     cookie (headers req) = Some h →
     cookie_pieces h = before ++ piece :: after →
     Forall (fun later => cookie_name later ≠ removelast piece) after →
     addCookies req = Normal r →
     field r !! removelast piece = Some v).
Proof.
  intros Hcut Hdec Hkey.
  destruct (cookie_uncut piece Hcut) as [Hname Hvalue].
  assert (Hv : decoded (cookie_value piece) = Some v).
  { unfold decoded. rewrite Hvalue, Hdec. reflexivity. }
  split.
  - intros cookies. rewrite add_cookie_decoded, Hv, Hname. unfold object_set.
    destruct (same_text (removelast piece) (js "__proto__")) eqn:Hs; [|reflexivity].
    apply same_text_eq in Hs. contradiction.
  - intros req h before after r Hh Hpieces Hafter Hrun.
    destruct (addCookies_lookup req h r (removelast piece) Hh Hrun Hkey) as [_ Hlook].
    rewrite Hlook, Hpieces, (last_named_later _ piece) by assumption.
    exact Hv.
Qed.

Lemma addCookies_piece_without_equals_witness :
  (∀ cookies, add_cookie cookies (js "ab%20") = Normal (<[js "ab%2" := js "ab "]> cookies)) ∧
  (∀ req h before after r,
     cookie (headers req) = Some h →
     cookie_pieces h = before ++ js "ab%20" :: after →
     Forall (fun later => cookie_name later ≠ js "ab%2") after →
     addCookies req = Normal r →
     field r !! js "ab%2" = Some (js "ab ")).
Proof.
  apply (addCookies_piece_without_equals (js "ab%20") (js "ab ")).
  - absent_from_text.
  - reflexivity.
  - discriminate.
Defined.

(** C10 as it is worded fails on two pieces without an equals sign.  The
    piece [%] has no percent-decoding: addCookies throws and returns no
    mapping at all.  The piece [__proto__x] decodes to itself and its key
    would be [__proto__], but the mapping addCookies returns holds nothing
    under that key. *)
Lemma addCookies_piece_without_equals_not_stored :
  ((61 ∉ js "%") ∧
   addCookies (request_with_cookie (HString (js "%"))) = Throw URIError ∧
   ¬ ∃ r, addCookies (request_with_cookie (HString (js "%"))) = Normal r) ∧
  ((61 ∉ js "__proto__x") ∧
   removelast (js "__proto__x") = js "__proto__" ∧
   decodeURIComponent (js "__proto__x") = Normal (js "__proto__x") ∧
   ∃ r, addCookies (request_with_cookie (HString (js "__proto__x"))) = Normal r ∧
        field r !! js "__proto__" = None).
Proof.
  split.
  - split; [absent_from_text|]. split; [reflexivity|].
    intros [r Hr]. vm_compute in Hr. discriminate.
  - split; [absent_from_text|]. split; [reflexivity|]. split; [reflexivity|].
    eexists. split; reflexivity.
Qed.

(** ** The transforms that read no body *)

Lemma forEach_add_cookie_outcome (pieces : list jsstring) (init : gmap jsstring jsstring) :
  (Forall (fun piece => is_Some (decoded (cookie_value piece))) pieces ∧
   ∃ m, forEach add_cookie pieces init = Normal m) ∨
  (Exists (fun piece => decoded (cookie_value piece) = None) pieces ∧
   forEach add_cookie pieces init = Throw URIError).
Proof.
  revert init. induction pieces as [|piece pieces IH]; intros init.
  - left. split; [constructor | exists init; reflexivity].
  - simpl forEach. rewrite add_cookie_decoded.
    destruct (decoded (cookie_value piece)) as [v|] eqn:Hv; simpl.
    + destruct (IH (object_set init (cookie_name piece) v)) as [[Hall Hm]|[Hex Hthrow]].
      * left. split; [|exact Hm]. constructor; [rewrite Hv; eexists; reflexivity | exact Hall].
      * right. split; [apply Exists_cons_tl; exact Hex | exact Hthrow].
    + right. split; [apply Exists_cons_hd; exact Hv | reflexivity].
Qed.

Lemma decodable_or_not (pieces : list jsstring) :
  Forall (fun piece => is_Some (decoded (cookie_value piece))) pieces →
  Exists (fun piece => decoded (cookie_value piece) = None) pieces → False.
Proof.
  intros Hall Hex. apply Exists_exists in Hex as (piece & Hin & Hnone).
  rewrite Forall_forall in Hall. destruct (Hall piece Hin) as [v Hv]. congruence.
Qed.

(** A text that ends in a percent sign is no percent-encoding. *)
Lemma uri_run_open_escape (s : jsstring) (st : uri_state) :
  uri_run st (s ++ [37]) = None.
Proof.
  revert st; induction s as [|c s IH]; intros st.
  - destruct st; reflexivity.
  - simpl. destruct (uri_step st c) as [[out st']|]; [|reflexivity].
    rewrite IH. reflexivity.
Qed.

(** C9, as the code has it. addXhr cannot fail: it hands the request back
    with its boolean, which is true when there is no accept header.
    addCookies returns the empty mapping when the cookie header is absent;
    with a cookie header it returns a mapping exactly when the value of
    every piece of the header has a percent-decoding, and throws the URIError
    of decodeURIComponent exactly when the value of some piece has none, as
    the value of a piece that ends in a percent sign; it throws no other
    error.  addUrlObj has no failure of its own and no guard: when url.parse
    returns, it returns the seven parts url.parse gave; it throws exactly
    what url.parse throws, and url.parse throws the URIError of
    decodeURIComponent on a URL that begins with "http://" whose text in
    front of the last at sign of the authority has no percent-decoding. *)
Theorem transforms_without_body
    (parseUrl : jsstring -> bool -> completion NodeUrl.t) (req : IncomingMessage) :
  (request (addXhr req) = req ∧
   (accept (headers req) = None → field (addXhr req) = true)) ∧
  (cookie (headers req) = None → addCookies req = Normal (Object_assign req ∅)) ∧
  (∀ h, cookie (headers req) = Some h →
     ((∃ cookies, addCookies req = Normal (Object_assign req cookies)) ↔
      Forall (fun piece => is_Some (decoded (cookie_value piece))) (cookie_pieces h)) ∧
     (addCookies req = Throw URIError ↔
      Exists (fun piece => decoded (cookie_value piece) = None) (cookie_pieces h)) ∧
     (∀ piece, piece ∈ cookie_pieces h → ends_with (cookie_value piece) (js "%") →
               addCookies req = Throw URIError) ∧
     (∀ e, addCookies req = Throw e → e = URIError)) ∧
  (∀ parsed, parseUrl (url req) true = Normal parsed →
     addUrlObj parseUrl req
     = Normal (Object_assign req
                 {| protocol := NodeUrl.protocol parsed;
                    auth := NodeUrl.auth parsed;
                    hostname := NodeUrl.hostname parsed;
                    port := NodeUrl.port parsed;
                    pathname := NodeUrl.pathname parsed;
                    query := NodeUrl.query parsed;
                    hash := NodeUrl.hash parsed |})) ∧
  (∀ e, addUrlObj parseUrl req = Throw e ↔ parseUrl (url req) true = Throw e) ∧
  (∀ text, http_auth (url req) = Some text → decoded text = None →
           addUrlObj (url_parse parseUrl) req = Throw URIError).
Proof.
  split; [|split; [|split; [|split; [|split]]]].
  - split; [reflexivity|]. intros Hacc. unfold addXhr; simpl field. rewrite Hacc.
    rewrite orb_true_iff. right. reflexivity.
  - intros Hc. rewrite addCookies_pieces, Hc. reflexivity.
  - intros h Hh. rewrite addCookies_pieces, Hh.
    assert (Hthrows : Exists (fun piece => decoded (cookie_value piece) = None)
                             (cookie_pieces h) →
                      (cookies ← forEach add_cookie (cookie_pieces h) ∅;
                       mret (Object_assign req cookies)) = Throw URIError).
    { intros Hex.
      destruct (forEach_add_cookie_outcome (cookie_pieces h) ∅) as [[Hall _]|[_ ->]];
        [|reflexivity].
      destruct (decodable_or_not _ Hall Hex). }
    split; [|split; [|split]].
    + split.
      * intros [cookies Hret].
        destruct (forEach_add_cookie_outcome (cookie_pieces h) ∅) as [[Hall _]|[_ Hthrow]];
          [exact Hall|].
        rewrite Hthrow in Hret. discriminate.
      * intros Hall.
        destruct (forEach_add_cookie_returns (cookie_pieces h) ∅ Hall) as [m Hm].
        exists m. rewrite Hm. reflexivity.
    + split; [|exact Hthrows].
      destruct (forEach add_cookie (cookie_pieces h) ∅) as [m|e] eqn:Hloop;
        [discriminate|].
      intros _. exact (proj2 (forEach_add_cookie_throws _ _ _ Hloop)).
    + intros piece Hin [before Hends]. apply Hthrows.
      apply Exists_exists. exists piece. split; [exact Hin|].
      unfold decoded, decodeURIComponent. rewrite Hends.
      change (js "%") with [37]. rewrite uri_run_open_escape. reflexivity.
    + intros e.
      destruct (forEach add_cookie (cookie_pieces h) ∅) as [m|e'] eqn:Hloop;
        [discriminate|].
      intros [= <-]. exact (proj1 (forEach_add_cookie_throws _ _ _ Hloop)).
  - intros parsed Hp. unfold addUrlObj. rewrite Hp. reflexivity.
  - intros e. unfold addUrlObj, mbind, completion_bind, mret, completion_ret.
    destruct (parseUrl (url req) true) as [parsed|e']; split; intros H;
      (discriminate || (injection H as ->; reflexivity)).
  - intros text Hauth Hnone. unfold addUrlObj, url_parse. rewrite Hauth.
    unfold decoded in Hnone.
    destruct (decodeURIComponent text) as [r|e] eqn:Hd; [discriminate|].
    apply decodeURIComponent_throws in Hd as ->. reflexivity.
Qed.

(** A request without headers for the path "/", two cookies that decode, a
    cookie whose value is an open escape, and a URL whose user name is
    one. *)
Lemma transforms_without_body_witness :
  field (addXhr bare_request) = true ∧
  addCookies bare_request = Normal (Object_assign bare_request ∅) ∧
  (∃ cookies,
     addCookies (request_with_cookie (HString (js "a=1; b=2")))
     = Normal (Object_assign (request_with_cookie (HString (js "a=1; b=2"))) cookies)) ∧
  addCookies (request_with_cookie (HString (js "a=1; b=50%"))) = Throw URIError ∧
  addUrlObj parse_path_only bare_request
  = Normal (Object_assign bare_request
              {| protocol := None; auth := None; hostname := None; port := None;
                 pathname := Some (js "/"); query := ∅; hash := None |}) ∧
  addUrlObj (url_parse parse_path_only) (request_for (js "http://%@example.com/"))
  = Throw URIError.
Proof.
  destruct (transforms_without_body parse_path_only bare_request)
    as ((_ & Hxhr) & Hnone & _ & Hurl & _ & _).
  destruct (transforms_without_body parse_path_only
              (request_with_cookie (HString (js "a=1; b=2"))))
    as (_ & _ & Hgood & _).
  destruct (Hgood (HString (js "a=1; b=2")) eq_refl) as (Hreturns & _).
  destruct (transforms_without_body parse_path_only
              (request_with_cookie (HString (js "a=1; b=50%"))))
    as (_ & _ & Hbad & _).
  destruct (Hbad (HString (js "a=1; b=50%")) eq_refl) as (_ & _ & Hopen & _).
  destruct (transforms_without_body parse_path_only
              (request_for (js "http://%@example.com/")))
    as (_ & _ & _ & _ & _ & Hauth).
  split; [exact (Hxhr eq_refl)|].
  split; [exact (Hnone eq_refl)|].
  split; [apply Hreturns; repeat constructor; eexists; reflexivity|].
  split; [apply (Hopen (js "b=50%"));
          [apply list_elem_of_In; vm_compute; auto | exists (js "50"); reflexivity]|].
  split; [exact (Hurl _ eq_refl)|].
  exact (Hauth (js "%") eq_refl eq_refl).
Defined.

(** C9 as it is worded fails twice.  On the cookie header [a=%] the value
    of the one piece is an open escape, and addCookies throws.  On the URL
    [http://%@example.com/] the user name is an open escape, url.parse
    throws, and so does addUrlObj. *)
Lemma transforms_throw_on_open_escape :
  (addCookies (request_with_cookie (HString (js "a=%"))) = Throw URIError ∧
   ¬ ∃ r, addCookies (request_with_cookie (HString (js "a=%"))) = Normal r) ∧
  (addUrlObj (url_parse parse_path_only) (request_for (js "http://%@example.com/"))
   = Throw URIError ∧
   ¬ ∃ r, addUrlObj (url_parse parse_path_only) (request_for (js "http://%@example.com/"))
          = Normal r).
Proof.
  split; (split; [reflexivity|]); intros [r Hr]; vm_compute in Hr; discriminate.
Qed.

(** * Further properties *)

(** ** The promise of addBody *)

Lemma addBody_pending_stream (req : IncomingMessage) (events : list stream_event) :
  addBody req events = Pending ↔ read_stream events = Pending.
Proof.
  unfold addBody. destruct (read_stream events) as [|data|e]; simpl.
  - tauto.
  - destruct (decode_body _ data); simpl; split; discriminate.
  - split; discriminate.
Qed.

(** X1. addBody has no timeout of its own: its promise is pending exactly as
    long as the stream has emitted nothing but data, whatever the content
    type and however much data has arrived. *)
Theorem addBody_pending_iff (req : IncomingMessage) (events : list stream_event) :
  addBody req events = Pending ↔ Forall is_data events.
Proof.
  rewrite addBody_pending_stream. unfold read_stream.
  apply listen_pending_iff. reflexivity.
Qed.

Lemma read_stream_first_terminal (pre post : list stream_event) (ev : stream_event) :
  Forall is_data pre → is_terminal ev →
  read_stream (pre ++ ev :: post) = read_stream (pre ++ [ev]).
Proof.
  intros Hpre Hev. destruct ev as [chunk| |cause]; [destruct Hev| |].
  - transitivity (@Fulfilled Buffer (Buffer_concat (data_chunks pre))).
    + apply read_stream_fulfilled. exists pre, post. auto.
    + symmetry. apply read_stream_fulfilled. exists pre, []. auto.
  - transitivity (@Rejected Buffer cause).
    + apply read_stream_rejected. exists pre, post. auto.
    + symmetry. apply read_stream_rejected. exists pre, []. auto.
Qed.

(** X2. The first terminal event of the stream decides the promise: whatever
    the stream emits after its first [End] or [Error] (more data, an error
    after the end, an end after the error) changes nothing. *)
Theorem addBody_first_terminal_event
    (req : IncomingMessage) (pre post : list stream_event) (ev : stream_event) :
  Forall is_data pre → is_terminal ev →
  addBody req (pre ++ ev :: post) = addBody req (pre ++ [ev]).
Proof.
  intros Hpre Hev. unfold addBody.
  rewrite (read_stream_first_terminal pre post ev Hpre Hev). reflexivity.
Qed.

Lemma addBody_first_terminal_event_witness :
  addBody (request_of_type (js "text/plain"))
          ([Data (bytes "ab")] ++ End :: [Error hang_up; Data (bytes "cd")])
  = addBody (request_of_type (js "text/plain")) ([Data (bytes "ab")] ++ [End]).
Proof.
  apply (addBody_first_terminal_event (request_of_type (js "text/plain"))
           [Data (bytes "ab")] [Error hang_up; Data (bytes "cd")] End).
  - repeat constructor.
  - exact I.
Defined.

(** X3. The decoded body depends on the bytes the stream delivered, not on
    how they were cut into chunks: two streams whose chunks, in order of
    arrival, concatenate to the same buffer before their [End] give the same
    promise.  A character whose bytes straddle two chunks is decoded like any
    other. *)
Theorem addBody_chunking
    (req : IncomingMessage) (pre pre' post post' : list stream_event) :
  Forall is_data pre → Forall is_data pre' →
  Buffer_concat (data_chunks pre) = Buffer_concat (data_chunks pre') →
  addBody req (pre ++ End :: post) = addBody req (pre' ++ End :: post').
Proof.
  intros Hpre Hpre' Hsame. unfold addBody.
  assert (H1 : read_stream (pre ++ End :: post)
               = Fulfilled (Buffer_concat (data_chunks pre))).
  { apply read_stream_fulfilled. exists pre, post. auto. }
  assert (H2 : read_stream (pre' ++ End :: post')
               = Fulfilled (Buffer_concat (data_chunks pre'))).
  { apply read_stream_fulfilled. exists pre', post'. auto. }
  rewrite H1, H2, Hsame. reflexivity.
Qed.

Lemma addBody_chunking_witness :
  addBody (request_of_type (js "application/json"))
          ([Data [x22; xc3]%byte; Data [xa9; x22]%byte] ++ End :: [])
  = addBody (request_of_type (js "application/json"))
            ([Data [x22; xc3; xa9; x22]%byte] ++ End :: []).
Proof.
  apply (addBody_chunking (request_of_type (js "application/json"))
           [Data [x22; xc3]%byte; Data [xa9; x22]%byte]
           [Data [x22; xc3; xa9; x22]%byte] [] []).
  - repeat constructor.
  - repeat constructor.
  - reflexivity.
Defined.

(** X4. addBody fails in two ways only.  Either the stream failed, and the
    reason is the stream's error; or the stream completed with a non-empty
    buffer under a content type containing "application/json" and JSON.parse
    threw, and the reason is that SyntaxError.  The form rule and the raw
    rule never fail. *)
Theorem addBody_failures
    (req : IncomingMessage) (events : list stream_event) (e : js_error) :
  addBody req events = Rejected e →
  read_stream events = Rejected e ∨
  (∃ data,
     read_stream events = Fulfilled data ∧
     contains_ci (default [] (content_type (headers req))) (js "application/json") ∧
     length data ≠ 0%nat ∧
     JSON_parse (Buffer_toString data utf8) = Throw e ∧
     error_name e = js "SyntaxError").
Proof.
  unfold addBody. destruct (read_stream events) as [|data|e'] eqn:Hread; simpl.
  - discriminate.
  - unfold decode_body.
    destruct (regex_test true (js "application/json") _) eqn:Hjson.
    + destruct data as [|b data]; [discriminate|].
      change (0 <? length (b :: data))%nat with true. cbv iota.
      destruct (JSON_parse (Buffer_toString (b :: data) contentEncoding))
        as [v|e'] eqn:Hparse; simpl; [discriminate|].
      intros [= <-]. right. exists (b :: data).
      repeat split; try assumption.
      * apply regex_test_contains_ci. assumption.
      * discriminate.
      * apply (JSON_parse_throws _ _ Hparse).
    + destruct (regex_test true (js "application/x-www-form-urlencoded") _);
        simpl; discriminate.
  - intros [= <-]. left. reflexivity.
Qed.

Lemma addBody_failures_witness :
  read_stream [Data (bytes "{bad"); End]
  = Rejected (SyntaxError (js "Unexpected token in JSON at position 1")) ∨
  (∃ data,
     read_stream [Data (bytes "{bad"); End] = Fulfilled data ∧
     contains_ci (default [] (content_type (headers (request_of_type (js "application/json")))))
                 (js "application/json") ∧
     length data ≠ 0%nat ∧
     JSON_parse (Buffer_toString data utf8)
     = Throw (SyntaxError (js "Unexpected token in JSON at position 1")) ∧
     error_name (SyntaxError (js "Unexpected token in JSON at position 1"))
     = js "SyntaxError").
Proof.
  apply (addBody_failures (request_of_type (js "application/json"))
           [Data (bytes "{bad"); End]
           (SyntaxError (js "Unexpected token in JSON at position 1"))).
  reflexivity.
Defined.

(** ** The content type and the body *)

Lemma match_here_canonical (pat s s' : jsstring) :
  List.map canonicalize s = List.map canonicalize s' →
  match_here true pat s = match_here true pat s'.
Proof.
  revert s s'; induction pat as [|p pat IH]; intros s s' Hs; [reflexivity|].
  destruct s as [|c s], s' as [|c' s']; try discriminate; [reflexivity|].
  simpl in Hs. injection Hs as Hc Hs. simpl.
  rewrite Hc, (IH s s' Hs). reflexivity.
Qed.

Lemma regex_test_canonical (pat s s' : jsstring) :
  List.map canonicalize s = List.map canonicalize s' →
  regex_test true pat s = regex_test true pat s'.
Proof.
  revert s'; induction s as [|c s IH]; intros s' Hs.
  - destruct s'; [reflexivity | discriminate].
  - destruct s' as [|c' s']; [discriminate|].
    simpl regex_test. rewrite (match_here_canonical pat (c :: s) (c' :: s') Hs).
    simpl in Hs. injection Hs as _ Hs. rewrite (IH s' Hs). reflexivity.
Qed.

(** X5. The letter case of the content type is of no account: two requests
    whose content types differ only in the case of ASCII letters (an absent
    header being the empty text) have their bodies decoded alike, on every
    stream. *)
Theorem addBody_content_type_case
    (req req' : IncomingMessage) (events : list stream_event) :
  List.map canonicalize (default [] (content_type (headers req)))
  = List.map canonicalize (default [] (content_type (headers req'))) →
  settles_with (addBody req events) = settles_with (addBody req' events).
Proof.
  intros Hct. unfold addBody.
  destruct (read_stream events) as [|data|e]; simpl; try reflexivity.
  unfold decode_body.
  rewrite (regex_test_canonical (js "application/json") _ _ Hct).
  rewrite (regex_test_canonical (js "application/x-www-form-urlencoded") _ _ Hct).
  destruct (regex_test true (js "application/json") _).
  - destruct (0 <? length data)%nat; [|reflexivity].
    destruct (JSON_parse (Buffer_toString data contentEncoding)); reflexivity.
  - destruct (regex_test true (js "application/x-www-form-urlencoded") _); reflexivity.
Qed.

Lemma addBody_content_type_case_witness :
  settles_with (addBody (request_of_type (js "APPLICATION/JSON")) [Data (bytes "[1]"); End])
  = settles_with (addBody (request_of_type (js "application/json")) [Data (bytes "[1]"); End]).
Proof.
  apply (addBody_content_type_case
           (request_of_type (js "APPLICATION/JSON"))
           (request_of_type (js "application/json")) [Data (bytes "[1]"); End]).
  reflexivity.
Defined.

Lemma Buffer_toString_ascii (data : Buffer) :
  Forall (fun b => Byte.to_N b <= 127) data →
  Buffer_toString data utf8 = List.map Byte.to_N data.
Proof.
  intros H. unfold Buffer_toString. apply utf8_text_ascii.
  induction H; constructor; assumption.
Qed.

Lemma json_space_small (c : N) : is_json_space c = true → c <= 127.
Proof.
  unfold is_json_space. rewrite !orb_true_iff, !N.eqb_eq. lia.
Qed.

Lemma json_run_spaces (p : parser) (pos : N) (text : jsstring) :
  Forall (fun c => is_json_space c = true) text →
  json_run (LStart, p) pos text = inr (LStart, p).
Proof.
  intros H. revert pos. induction H as [|c text Hc _ IH]; intros pos; [reflexivity|].
  simpl. unfold lex_start. rewrite Hc. apply IH.
Qed.

Lemma JSON_parse_blank (data : Buffer) :
  Forall json_space_byte data →
  JSON_parse (Buffer_toString data utf8)
  = Throw (SyntaxError (js "Unexpected end of JSON input")).
Proof.
  intros Hblank. rewrite Buffer_toString_ascii.
  - unfold JSON_parse. rewrite json_run_spaces; [reflexivity|].
    induction Hblank; constructor; assumption.
  - induction Hblank as [|b data Hb _ IH]; constructor; [|assumption].
    apply json_space_small. exact Hb.
Qed.

(** X6. Only a body of length zero is the absent body.  Under a content type
    containing "application/json", a body that is not empty but holds white
    space only (spaces, tabs, line feeds, carriage returns) makes addBody
    fail with the SyntaxError of JSON.parse. *)
Theorem addBody_json_blank_body
    (req : IncomingMessage) (events : list stream_event) (ct : jsstring) (data : Buffer) :
  content_type (headers req) = Some ct →
  contains_ci ct (js "application/json") →
  read_stream events = Fulfilled data →
  data ≠ [] →
  Forall json_space_byte data →
  ∃ e, addBody req events = Rejected e ∧ error_name e = js "SyntaxError".
Proof.
  intros Hct Hjson Hread Hdata Hblank.
  assert (Hparse : JSON_parse (Buffer_toString data utf8)
                   = Throw (SyntaxError (js "Unexpected end of JSON input"))).
  { apply JSON_parse_blank. assumption. }
  exists (SyntaxError (js "Unexpected end of JSON input")).
  split; [|reflexivity].
  rewrite addBody_decoded, Hct. simpl default.
  rewrite (decoded_by_fulfilled _ _ _ data Hread), decode_body_json by assumption.
  unfold json_rule. destruct data as [|b data]; [done|].
  change (0 <? length (b :: data))%nat with true. cbv iota.
  rewrite Hparse. reflexivity.
Qed.

Lemma addBody_json_blank_body_witness :
  ∃ e, addBody (request_of_type (js "application/json")) [Data (bytes "  "); End]
       = Rejected e ∧
       error_name e = js "SyntaxError".
Proof.
  apply (addBody_json_blank_body (request_of_type (js "application/json"))
           [Data (bytes "  "); End] (js "application/json") (bytes "  ")).
  - reflexivity.
  - exists [], (js "application/json"), []. split; reflexivity.
  - reflexivity.
  - discriminate.
  - repeat constructor.
Defined.

(** X7. The bytes are decoded as they are: a byte order mark is not
    stripped.  Under a content type containing "application/json", a body
    that begins with the UTF-8 byte order mark (EF BB BF) makes addBody fail
    with the SyntaxError of JSON.parse, whatever follows the mark. *)
Theorem addBody_json_byte_order_mark
    (req : IncomingMessage) (events : list stream_event) (ct : jsstring) (rest : Buffer) :
  content_type (headers req) = Some ct →
  contains_ci ct (js "application/json") →
  read_stream events = Fulfilled ([xef; xbb; xbf]%byte ++ rest) →
  ∃ e, addBody req events = Rejected e ∧ error_name e = js "SyntaxError".
Proof.
  intros Hct Hjson Hread.
  exists (SyntaxError (js "Unexpected token in JSON at position 0")).
  split; [|reflexivity].
  rewrite addBody_decoded, Hct. simpl default.
  rewrite (decoded_by_fulfilled _ _ _ _ Hread), decode_body_json by assumption.
  reflexivity.
Qed.

Lemma addBody_json_byte_order_mark_witness :
  ∃ e, addBody (request_of_type (js "application/json"))
               [Data [xef; xbb; xbf]%byte; Data (bytes "{}"); End]
       = Rejected e ∧
       error_name e = js "SyntaxError".
Proof.
  apply (addBody_json_byte_order_mark (request_of_type (js "application/json"))
           [Data [xef; xbb; xbf]%byte; Data (bytes "{}"); End]
           (js "application/json") (bytes "{}")).
  - reflexivity.
  - exists [], (js "application/json"), []. split; reflexivity.
  - reflexivity.
Defined.

(** X8. The absent marker belongs to the JSON rule alone.  Under a content
    type containing "application/x-www-form-urlencoded" and not
    "application/json", an empty body is decoded to the empty mapping; under
    a content type containing neither, to the empty buffer. *)
Theorem addBody_empty_body_other_types
    (req : IncomingMessage) (events : list stream_event) :
  ¬ contains_ci (default [] (content_type (headers req))) (js "application/json") →
  read_stream events = Fulfilled [] →
  (contains_ci (default [] (content_type (headers req)))
               (js "application/x-www-form-urlencoded") →
   addBody req events = Fulfilled (Object_assign req (Query ∅))) ∧
  (¬ contains_ci (default [] (content_type (headers req)))
                 (js "application/x-www-form-urlencoded") →
   addBody req events = Fulfilled (Object_assign req (Raw []))).
Proof.
  intros Hjson Hread. rewrite addBody_decoded.
  rewrite (decoded_by_fulfilled _ _ _ _ Hread). split; intros Hform.
  - rewrite decode_body_form by assumption. reflexivity.
  - rewrite decode_body_raw by assumption. reflexivity.
Qed.

Lemma addBody_empty_body_other_types_witness :
  addBody (request_of_type (js "application/x-www-form-urlencoded")) [End]
  = Fulfilled (Object_assign (request_of_type (js "application/x-www-form-urlencoded"))
                             (Query ∅)).
Proof.
  destruct (addBody_empty_body_other_types
              (request_of_type (js "application/x-www-form-urlencoded")) [End])
    as [Hform _].
  - intros H. apply regex_test_contains_ci in H. vm_compute in H. discriminate.
  - reflexivity.
  - apply Hform.
    exists [], (js "application/x-www-form-urlencoded"), []. split; reflexivity.
Defined.

(** ** addXhr and the query string *)

Lemma ends_with_after (sep : N) (front back pat : jsstring) :
  sep ∉ pat →
  ends_with (front ++ sep :: back) pat ↔ ends_with back pat.
Proof.
  intros Hsep. unfold ends_with. split.
  - intros (before & Heq).
    apply app_eq_inv in Heq as [(k & _ & Hk) | (k & _ & Hk)].
    + exfalso. apply Hsep. rewrite Hk. apply elem_of_app; right; left.
    + destruct k as [|c k].
      * exfalso. apply Hsep. simpl in Hk. rewrite <- Hk. left.
      * injection Hk as _ ->. exists k. reflexivity.
  - intros (before & ->). exists (front ++ sep :: before).
    rewrite <- app_assoc. reflexivity.
Qed.

(** X9. The URL rule of addXhr reads the raw URL, so once the URL has a
    query string the path counts no more: for a URL [path?query], [xhr] is
    true if and only if x-requested-with was sent exactly as
    "XMLHttpRequest", or the query ends with ".json", or the accept header
    does not mention "text/html".  A path ending in ".json" followed by a
    query is not recognised, and a query ending in ".json" is. *)
Theorem addXhr_with_query (req : IncomingMessage) (path query : jsstring) :
  url req = path ++ 63 :: query →
  (field (addXhr req) = true ↔
     sent_as (x_requested_with (headers req)) (js "XMLHttpRequest") ∨
     ends_with query (js ".json") ∨
     ¬ mentions (accept (headers req)) (js "text/html")).
Proof.
  intros Hurl. unfold addXhr; simpl field.
  rewrite !orb_true_iff, negb_true_iff, regex_test_at_end_spec, Hurl.
  rewrite (ends_with_after 63 path query (js ".json")) by absent_from_text.
  rewrite loose_equals_sent_as; [|absent_from_text|discriminate].
  rewrite <- (regex_test_mentions (accept (headers req)) (js "text/html"));
    [|absent_from_text|discriminate|reflexivity].
  rewrite not_true_iff_false. tauto.
Qed.

Lemma addXhr_with_query_witness :
  field (addXhr {| headers := {| content_type := None; x_requested_with := None;
                                 accept := Some (HString (js "text/html"));
                                 cookie := None |};
                   url := js "/report.json?page=2" |}) = true ↔
  sent_as None (js "XMLHttpRequest") ∨
  ends_with (js "page=2") (js ".json") ∨
  ¬ mentions (Some (HString (js "text/html"))) (js "text/html").
Proof.
  apply (addXhr_with_query
           {| headers := {| content_type := None; x_requested_with := None;
                            accept := Some (HString (js "text/html"));
                            cookie := None |};
              url := js "/report.json?page=2" |}
           (js "/report.json") (js "page=2")).
  reflexivity.
Defined.

(** ** addCookies: what the mapping holds *)

Lemma last_named_elem (name piece : jsstring) (pieces : list jsstring) :
  last_named name pieces = Some piece → piece ∈ pieces ∧ cookie_name piece = name.
Proof.
  induction pieces as [|p pieces IH]; simpl; [discriminate|].
  destruct (last_named name pieces) as [later|].
  - intros [= <-]. destruct (IH eq_refl) as [Hin Hname].
    split; [right; assumption | assumption].
  - destruct (same_text (cookie_name p) name) eqn:Hs; [|discriminate].
    intros [= <-]. split; [left | apply same_text_eq; assumption].
Qed.

Lemma forEach_add_cookie_proto (pieces : list jsstring) (init m : gmap jsstring jsstring) :
  forEach add_cookie pieces init = Normal m →
  m !! js "__proto__" = init !! js "__proto__".
Proof.
  revert init. induction pieces as [|piece pieces IH]; intros init Hrun.
  - injection Hrun as <-. reflexivity.
  - simpl in Hrun. rewrite add_cookie_decoded in Hrun.
    destruct (decoded (cookie_value piece)) as [v|]; [|discriminate].
    simpl in Hrun. rewrite (IH _ Hrun). unfold object_set.
    destruct (same_text (cookie_name piece) (js "__proto__")) eqn:Hs; [reflexivity|].
    apply lookup_insert_ne. intros Heq. rewrite Heq, same_text_refl in Hs. discriminate.
Qed.

(** X10. Of the cookies of one name the last one of the header stays: when
    addCookies returns, the mapping holds, under the name of a piece that no
    later piece shares (other than [__proto__]), the decoded value of that
    piece, whatever came before it; and it holds nothing under a name that
    no piece has. *)
Theorem addCookies_last_wins
    (req : IncomingMessage) (h : header_value) (r : extended (gmap jsstring jsstring)) :
  cookie (headers req) = Some h →
  addCookies req = Normal r →
  (∀ before piece after,
     cookie_pieces h = before ++ piece :: after →
     cookie_name piece ≠ js "__proto__" →
     Forall (fun later => cookie_name later ≠ cookie_name piece) after →
     ∃ v, decodeURIComponent (cookie_value piece) = Normal v ∧
          field r !! cookie_name piece = Some v) ∧
  (∀ name, Forall (fun piece => cookie_name piece ≠ name) (cookie_pieces h) →
           field r !! name = None).
Proof.
  intros Hh Hrun. split.
  - intros before piece after Hpieces Hproto Hafter.
    destruct (addCookies_lookup req h r (cookie_name piece) Hh Hrun Hproto) as [_ Hlook].
    rewrite Hpieces, (last_named_later _ piece) in Hlook by auto.
    rewrite Hlook. unfold decoded.
    rewrite addCookies_pieces, Hh in Hrun.
    destruct (forEach add_cookie (cookie_pieces h) ∅) as [m|e] eqn:Hloop; [|discriminate].
    destruct (decodeURIComponent (cookie_value piece)) as [v|e] eqn:Hv; [eauto|].
    exfalso. clear Hlook Hrun.
    rewrite Hpieces in Hloop. clear Hpieces. revert Hloop.
    generalize (∅ : gmap jsstring jsstring).
    induction before as [|b before IH]; intros init; simpl.
    + rewrite add_cookie_decoded. unfold decoded. rewrite Hv. simpl. discriminate.
    + destruct (add_cookie init b); simpl; [apply IH | discriminate].
  - intros name Hnone.
    rewrite addCookies_pieces, Hh in Hrun.
    destruct (forEach add_cookie (cookie_pieces h) ∅) as [m|e] eqn:Hloop; [|discriminate].
    injection Hrun as <-. simpl field.
    destruct (decide (name = js "__proto__")) as [->|Hname].
    + rewrite (forEach_add_cookie_proto _ _ _ Hloop). apply lookup_empty.
    + rewrite (forEach_add_cookie_lookup _ _ _ name Hloop Hname).
      destruct (last_named name (cookie_pieces h)) as [piece|] eqn:Hlast;
        [|apply lookup_empty].
      apply last_named_elem in Hlast as [Hin Hpn].
      rewrite Forall_forall in Hnone. destruct (Hnone piece Hin Hpn).
Qed.

Lemma addCookies_last_wins_witness :
  ∃ v, decodeURIComponent (cookie_value (js "a=3")) = Normal v ∧
       field (Object_assign (request_with_cookie (HString (js "a=1; b=2; a=3")))
                            ({[ js "a" := js "3"; js "b" := js "2" ]}
                               : gmap jsstring jsstring))
         !! cookie_name (js "a=3") = Some v.
Proof.
  destruct (addCookies_last_wins
              (request_with_cookie (HString (js "a=1; b=2; a=3")))
              (HString (js "a=1; b=2; a=3"))
              (Object_assign (request_with_cookie (HString (js "a=1; b=2; a=3")))
                             {[ js "a" := js "3"; js "b" := js "2" ]})
              eq_refl eq_refl) as [Hlast _].
  apply (Hlast [js "a=1"; js "b=2"] (js "a=3") []).
  - reflexivity.
  - discriminate.
  - constructor.
Defined.

(** X11. The mapping addCookies returns never has an entry named
    [__proto__], whatever the cookie header holds. *)
Theorem addCookies_never_proto
    (req : IncomingMessage) (r : extended (gmap jsstring jsstring)) :
  addCookies req = Normal r → field r !! js "__proto__" = None.
Proof.
  rewrite addCookies_pieces. destruct (cookie (headers req)) as [h|].
  - destruct (forEach add_cookie (cookie_pieces h) ∅) as [m|e] eqn:Hloop; [|discriminate].
    intros [= <-]. simpl field.
    rewrite (forEach_add_cookie_proto _ _ _ Hloop). apply lookup_empty.
  - intros [= <-]. apply lookup_empty.
Qed.

Lemma addCookies_never_proto_witness :
  field (Object_assign (request_with_cookie (HString (js "a=1; __proto__=x; b=2")))
                       ({[ js "a" := js "1"; js "b" := js "2" ]} : gmap jsstring jsstring))
    !! js "__proto__" = None.
Proof.
  apply (addCookies_never_proto
           (request_with_cookie (HString (js "a=1; __proto__=x; b=2")))
           (Object_assign (request_with_cookie (HString (js "a=1; __proto__=x; b=2")))
                          {[ js "a" := js "1"; js "b" := js "2" ]})).
  reflexivity.
Defined.

(** ** addCookies: the header a client sends *)

Lemma cookie_pair_no_semicolon (p : jsstring * jsstring) :
  plain_cookie p → 59 ∉ cookie_pair p.
Proof.
  intros (Hn & _ & _ & _ & Hv & _). unfold cookie_pair.
  rewrite elem_of_app, elem_of_cons. intros [H | [H | H]]; [auto | discriminate | auto].
Qed.

Lemma cookie_pair_head (p : jsstring * jsstring) :
  plain_cookie p →
  match cookie_pair p with [] => True | c :: _ => is_whitespace c = false end.
Proof.
  intros (_ & _ & Hw & _). unfold cookie_pair.
  destruct p as [[|c n] v]; simpl in *; [reflexivity|].
  destruct (is_whitespace c); [contradiction | reflexivity].
Qed.

Lemma cookie_header_head (pairs : list (jsstring * jsstring)) :
  Forall plain_cookie pairs →
  match cookie_header pairs with [] => True | c :: _ => is_whitespace c = false end.
Proof.
  intros Hall. destruct Hall as [|p pairs Hp Hall]; [exact I|].
  pose proof (cookie_pair_head p Hp) as Hhead.
  unfold cookie_header. simpl List.map.
  destruct pairs as [|q pairs]; [exact Hhead|].
  change (join (js "; ") (cookie_pair p :: List.map cookie_pair (q :: pairs)))
    with (cookie_pair p ++ js "; " ++ join (js "; ") (List.map cookie_pair (q :: pairs))).
  destruct (cookie_pair p) as [|c rest] eqn:Hpair; [|exact Hhead].
  unfold cookie_pair in Hpair. destruct (p.1); discriminate.
Qed.

(** The header of plain cookies is cut back into the texts of its cookies. *)
Lemma split_cookie_header (pairs : list (jsstring * jsstring)) :
  Forall plain_cookie pairs → pairs ≠ [] →
  split_semicolon (cookie_header pairs) = List.map cookie_pair pairs.
Proof.
  intros Hall Hne. induction Hall as [|p pairs Hp Hall IH]; [done|].
  destruct pairs as [|q pairs].
  - apply split_semicolon_single, cookie_pair_no_semicolon, Hp.
  - change (cookie_header (p :: q :: pairs))
      with (cookie_pair p ++ 59 :: [32] ++ cookie_header (q :: pairs)).
    rewrite split_semicolon_cons.
    + rewrite IH by discriminate. reflexivity.
    + apply cookie_pair_no_semicolon, Hp.
    + repeat constructor.
    + apply cookie_header_head, Hall.
Qed.

Lemma add_cookie_plain (cookies : gmap jsstring jsstring) (p : jsstring * jsstring) :
  plain_cookie p →
  add_cookie cookies (cookie_pair p) = Normal (<[p.1 := p.2]> cookies).
Proof.
  intros (_ & Heq & _ & Hproto & _ & Hpct).
  destruct (cookie_cut p.1 p.2 Heq) as [Hname Hvalue].
  rewrite add_cookie_decoded. unfold cookie_pair. rewrite Hname, Hvalue.
  unfold decoded, decodeURIComponent. rewrite uri_run_plain by assumption.
  unfold object_set. destruct (same_text p.1 (js "__proto__")) eqn:Hs; [|reflexivity].
  apply same_text_eq in Hs. contradiction.
Qed.

Lemma forEach_add_cookie_plain (pairs : list (jsstring * jsstring))
    (init : gmap jsstring jsstring) :
  Forall plain_cookie pairs →
  forEach add_cookie (List.map cookie_pair pairs) init
  = Normal (fold_left (fun m p => <[p.1 := p.2]> m) pairs init).
Proof.
  intros Hall. revert init. induction Hall as [|p pairs Hp _ IH]; intros init.
  - reflexivity.
  - simpl. rewrite add_cookie_plain by assumption. simpl. apply IH.
Qed.

Lemma fold_insert_pairs (pairs : list (jsstring * jsstring)) :
  fold_left (fun (m : gmap jsstring jsstring) p => <[p.1 := p.2]> m) pairs ∅
  = list_to_map (reverse pairs).
Proof.
  induction pairs as [|p pairs IH] using rev_ind; [reflexivity|].
  rewrite fold_left_app, reverse_snoc, IH. reflexivity.
Qed.

(** X12. addCookies reads back what a client wrote.  For every list of
    cookies that need no escaping, the header made of their [name=value]
    texts joined by a semicolon and a space is parsed, without failure, to
    the mapping of exactly those names to those values, a later cookie
    overriding an earlier one of the same name; a value may hold equals
    signs. *)
Theorem addCookies_round_trip
    (req : IncomingMessage) (pairs : list (jsstring * jsstring)) :
  cookie (headers req) = Some (HString (cookie_header pairs)) →
  Forall plain_cookie pairs →
  addCookies req = Normal (Object_assign req (list_to_map (reverse pairs))).
Proof.
  intros Hh Hall. rewrite addCookies_pieces, Hh.
  destruct pairs as [|p pairs]; [reflexivity|].
  assert (Hpieces : cookie_pieces (HString (cookie_header (p :: pairs)))
                    = List.map cookie_pair (p :: pairs)).
  { unfold cookie_pieces.
    destruct (cookie_header (p :: pairs)) as [|c text] eqn:Htext.
    - exfalso. unfold cookie_header in Htext. simpl List.map in Htext.
      destruct pairs as [|q pairs]; simpl in Htext;
        unfold cookie_pair in Htext; destruct (p.1); discriminate.
    - simpl truthy. cbv iota. rewrite <- Htext.
      apply split_cookie_header; [assumption | discriminate]. }
  rewrite Hpieces, forEach_add_cookie_plain by assumption.
  rewrite fold_insert_pairs. reflexivity.
Qed.

Lemma addCookies_round_trip_witness :
  addCookies (request_with_cookie
                (HString (cookie_header [(js "sid", js "a=b=c"); (js "lang", js "en");
                                         (js "sid", js "z")])))
  = Normal (Object_assign
              (request_with_cookie
                 (HString (cookie_header [(js "sid", js "a=b=c"); (js "lang", js "en");
                                          (js "sid", js "z")])))
              (list_to_map (reverse [(js "sid", js "a=b=c"); (js "lang", js "en");
                                     (js "sid", js "z")]))).
Proof.
  apply (addCookies_round_trip
           (request_with_cookie
              (HString (cookie_header [(js "sid", js "a=b=c"); (js "lang", js "en");
                                       (js "sid", js "z")])))
           [(js "sid", js "a=b=c"); (js "lang", js "en"); (js "sid", js "z")]).
  - reflexivity.
  - repeat constructor; try absent_from_text; try discriminate;
      intros H; vm_compute in H; discriminate.
Defined.

(** X13. A cookie header that arrives as several values is read as their
    texts joined by a semicolon: when the joined text is not empty, the
    mapping, or the failure, is that of the joined text sent as one value.
    When it is empty the two part: the array (the empty one, say) is still
    cut into one empty piece and yields the entry of the empty name and the
    empty value, while the empty string yields the empty mapping. *)
Theorem addCookies_array_header
    (req req' : IncomingMessage) (instances : list jsstring) :
  cookie (headers req) = Some (HArray instances) →
  cookie (headers req') = Some (HString (join (js ";") instances)) →
  (join (js ";") instances ≠ [] →
   returns (addCookies req) = returns (addCookies req')) ∧
  (join (js ";") instances = [] →
   returns (addCookies req) = Normal {[ [] := [] ]} ∧
   returns (addCookies req') = Normal ∅).
Proof.
  intros Hh Hh'. rewrite !addCookies_pieces, Hh, Hh'. split.
  - intros Hne. unfold cookie_pieces.
    destruct (join (js ";") instances) as [|c text]; [done|].
    simpl truthy. cbv iota.
    destruct (forEach add_cookie _ ∅); reflexivity.
  - intros Hempty. unfold cookie_pieces. rewrite Hempty. split; reflexivity.
Qed.

Lemma addCookies_array_header_witness :
  returns (addCookies (request_with_cookie (HArray [js "a=1"; js "b=2"])))
  = returns (addCookies (request_with_cookie (HString (join (js ";") [js "a=1"; js "b=2"])))).
Proof.
  destruct (addCookies_array_header
              (request_with_cookie (HArray [js "a=1"; js "b=2"]))
              (request_with_cookie (HString (join (js ";") [js "a=1"; js "b=2"])))
              [js "a=1"; js "b=2"] eq_refl eq_refl) as [Hsame _].
  apply Hsame. discriminate.
Defined.
